(** * Tree memory of tree-cross-attention: padding, bottom-up aggregation,
      top-down retrieval and the per-level loss tracker
      (models/memory_modules.py), as a shallow embedding.

    Conventions of the embedding.
    - A torch tensor is a shape together with its row-major data; [reshape]
      only changes the shape and fails when the element counts differ.
    - Tensor entries are exact rationals ([Q]); the source computes in
      floating point.  Values that are only copied are compared with [=],
      computed values with [==].
    - A Python exception is a value of [exn]; a function that can raise returns
      a [result].
    - The depth of the tree is the floor of a float32 quotient of two float32
      logarithms.  Its value is a parameter, [float_floor_log]; the statements
      are about the depth the code derives, whatever the rounding.
    - The attention block, the feed-forward block and the set aggregator are
      collaborators defined in other modules: they are parameters. *)

From Stdlib Require Import ZArith QArith Lia Lqa Bool.
From stdpp Require Import base list gmap.

Local Open Scope nat_scope.

(** ** Exceptions and results *)

Inductive exn : Set :=
  | ZeroDivisionError
  | TypeError
  | ValueError
  | IndexError
  | KeyError
  | RuntimeError
  | SystemExit
  | OutOfFuel.   (* not a Python exception: the loop bound of the model ran out *)

Inductive result (A : Type) : Type :=
  | Ok (a : A)
  | Err (e : exn).
Arguments Ok {A} a.
Arguments Err {A} e.

#[global] Instance result_ret : MRet result := fun A a => Ok a.
#[global] Instance result_bind : MBind result := fun A B f m =>
  match m with
  | Ok a => f a
  | Err e => Err e
  end.

Definition is_ok {A} (r : result A) : bool :=
  match r with Ok _ => true | Err _ => false end.

(** ** Tensors *)

Record tensor : Type := mkTensor { shape : list nat; data : list Q }.

Definition numel (sh : list nat) : nat := foldr Nat.mul 1 sh.

(** A tensor is well formed when it holds as many entries as its shape says. *)
Definition wf (t : tensor) : Prop := length (data t) = numel (shape t).

(** [t.reshape(sh)] *)
Definition reshape (sh : list nat) (t : tensor) : result tensor :=
  if decide (numel sh = length (data t)) then Ok (mkTensor sh (data t))
  else Err RuntimeError.

(** The first [cnt] consecutive blocks of [sz] entries. *)
Fixpoint chunks {A} (sz cnt : nat) (l : list A) : list (list A) :=
  match cnt with
  | O => []
  | S c => take sz l :: chunks sz c (drop sz l)
  end.

(** Entry [i, j, d] of a tensor of shape [_, n, dd]. *)
Definition get3 (t : tensor) (i j d : nat) : option Q :=
  match shape t with
  | [_; n; dd] => data t !! ((i * n + j) * dd + d)
  | _ => None
  end.

(** ** Tree shape *)

(** Largest [k] with [b ^ k <= n], for [b >= 2] and [n >= 1]: the exact
    logarithm to base [b], rounded down. *)
Fixpoint floor_log_fuel (fuel b n : nat) : nat :=
  match fuel with
  | O => 0
  | S f => if n <? b then 0 else S (floor_log_fuel f b (n / b))
  end.

Definition floor_log (b n : nat) : nat := floor_log_fuel n b n.

Definition INT_MIN : Z := (- 2 ^ 31)%Z.

(** [torch.floor(torch.log(torch.tensor(N - 1)) /
     torch.log(torch.tensor(branch_factor))).int().item()]

    The two logarithms and their quotient are float32 numbers.  For
    [N - 1 >= 1] the floored quotient is a parameter of the model,
    [float_floor_log branch_factor (N - 1)]: it is what torch computes, and
    rounding can leave the quotient on the other side of an integer than the
    exact one (for [N - 1 = 8192] and [branch_factor = 2] the float32
    quotient is 12.999999, for [N - 1 = 2097151] it is 21.0).
    For [N - 1 = 0] the logarithm is [-inf]; it stays [-inf] through the
    division and the floor, and its conversion to a 32-bit integer gives
    [INT_MIN].  The model covers [branch_factor >= 2] and [N >= 1]. *)
Definition branch_depth (float_floor_log : nat -> nat -> Z) (branch_factor N : nat) : Z :=
  if N - 1 =? 0 then INT_MIN
  else float_floor_log branch_factor (N - 1).

(** [math.ceil(N / d)] for integers [N >= 0] and [d > 0]. *)
Definition ceil_div (N d : nat) : nat := (N + d - 1) / d.

(** [P = math.ceil(N / branch_factor ** k)].

    With [k >= 0] the power is an integer.  With [k < 0] Python computes the
    power as a float: it raises for base 0, it is [0.0] once
    [branch_factor ^ (-k)] is beyond the float range (then the division
    raises), and otherwise [num_pad_nodes] becomes a float, which
    [torch.zeros] rejects. *)
Definition leaf_group_size (branch_factor : nat) (k : Z) (N : nat) : result nat :=
  if (0 <=? k)%Z then
    let d := branch_factor ^ Z.to_nat k in
    if d =? 0 then Err ZeroDivisionError else Ok (ceil_div N d)
  else if branch_factor =? 0 then Err ZeroDivisionError
  else if branch_factor =? 1 then Err TypeError
  else if (k <=? -1075)%Z then Err ZeroDivisionError
  else if (2 ^ 1075 <? Z.of_nat branch_factor ^ (- k))%Z then Err ZeroDivisionError
  else Err TypeError.

(** ** Padder *)

(** The offset added to the copied items. *)
Definition eps : Q := 1 # 100000.

Definition add_eps (x : Q) : Q := (x + eps)%Q.

(** [TreeMemory.pad_node_data] *)
Definition pad_node_data (float_floor_log : nat -> nat -> Z) (branch_factor : nat)
    (node_data : tensor) : result (tensor * tensor) :=
  match shape node_data with
  | [B; N; D] =>
      let k := branch_depth float_floor_log branch_factor N in
      P ← leaf_group_size branch_factor k N;
      let num_pad_nodes := (Z.of_nat (P * branch_factor ^ Z.to_nat k) - Z.of_nat N)%Z in
      if (num_pad_nodes <? 0)%Z then Err RuntimeError   (* torch.zeros: negative dimension *)
      else
        let pad := Z.to_nat num_pad_nodes in
        (* node_data[:, :num_pad_nodes, :] has min(num_pad_nodes, N) rows; the
           assignment needs as many rows as tree_data[:, N:, :], or one row *)
        let src := pad `min` N in
        if decide (src = pad) then
          let rows := chunks (N * D) B (data node_data) in
          let tree_data :=
            mkTensor [B; N + pad; D]
              (concat ((fun row => row ++ (add_eps <$> take (pad * D) row)) <$> rows)) in
          let mask :=
            mkTensor [B; N + pad; 1]
              (concat (replicate B (replicate N 1%Q ++ replicate pad 0%Q))) in
          Ok (tree_data, mask)
        else if decide (src = 1) then
          let rows := chunks (N * D) B (data node_data) in
          let tree_data :=
            mkTensor [B; N + pad; D]
              (concat ((fun row =>
                 row ++ concat (replicate pad (add_eps <$> take D row))) <$> rows)) in
          let mask :=
            mkTensor [B; N + pad; 1]
              (concat (replicate B (replicate N 1%Q ++ replicate pad 0%Q))) in
          Ok (tree_data, mask)
        else Err RuntimeError
  | _ => Err ValueError
  end.

(** ** Tree builder and bottom-up aggregator *)

(** [sh[:-2]], [sh[-2]] and [sh[-1]] of a shape of rank at least two. *)
Definition split_last2 (sh : list nat) : option (list nat * nat * nat) :=
  match reverse sh with
  | d :: n :: l => Some (reverse l, n, d)
  | _ => None
  end.

(** [t.squeeze(-2)] *)
Definition squeeze_m2 (t : tensor) : tensor :=
  match split_last2 (shape t) with
  | Some (lead, 1, d) => mkTensor (lead ++ [d]) (data t)
  | _ => t
  end.

Definition nonzero (x : Q) : bool := negb (Qeq_bool x 0).

(** One entry of [m.any(dim=-2).float()]: 1 when some child is not zero. *)
Definition any_float (children : list Q) : Q :=
  if existsb nonzero children then 1%Q else 0%Q.

(** [m.any(dim=-2).float()] for [m] of shape [tmp_batch_size, branch_size, 1]. *)
Definition any_children (branch_size tmp_batch_size : nat) (m : list Q) : list Q :=
  any_float <$> chunks branch_size tmp_batch_size m.

(** A stored level, [(layer_data, layer_mask)]. *)
Abbreviation level := (tensor * tensor)%type.

Section Aggregation.

(** The set aggregator (models/aggregator_modules.py): children
    [G, branch_size, D] and their mask [G, branch_size, 1] to one parent
    per group, [G, 1, D]. *)
Variable aggregator : tensor -> tensor -> tensor.

(** The floored float32 quotient of the depth computation, see
    [branch_depth]. *)
Variable float_floor_log : nat -> nat -> Z.

(** The [while] loop of [bottom_up_aggregation]; [acc] is
    [self.train_tree_data] before it is reversed. *)
Fixpoint aggregation_loop (fuel D : nat) (tree_depth_data tree_depth_mask : tensor)
    (acc : list level) : result (list level) :=
  if decide (length (shape tree_depth_data) ≤ 2) then Ok acc
  else
    match fuel with
    | O => Err OutOfFuel
    | S fuel' =>
        match split_last2 (shape tree_depth_data), split_last2 (shape tree_depth_mask) with
        | Some (lead, branch_size, dlast), Some (mlead, _, mlast) =>
            let tmp_batch_size := numel lead in
            tmp_tree_depth_data ← reshape [tmp_batch_size; branch_size; D] tree_depth_data;
            tmp_tree_depth_mask ← reshape [tmp_batch_size; branch_size; 1] tree_depth_mask;
            let computed_tree_depth_data :=
              squeeze_m2 (aggregator tmp_tree_depth_data tmp_tree_depth_mask) in
            let computed_tree_depth_mask :=
              mkTensor [tmp_batch_size; 1]
                (any_children branch_size tmp_batch_size (data tmp_tree_depth_mask)) in
            data' ← reshape (lead ++ [dlast]) computed_tree_depth_data;
            mask' ← reshape (mlead ++ [mlast]) computed_tree_depth_mask;
            aggregation_loop fuel' D data' mask' (acc ++ [(data', mask')])
        | _, _ => Err IndexError
        end
    end.

(** [TreeMemory.bottom_up_aggregation]: the new [self.train_tree_data]. *)
Definition bottom_up_aggregation (tree_depth_data tree_depth_mask : tensor)
    : result (list level) :=
  match last (shape tree_depth_data) with
  | None => Err IndexError
  | Some D =>
      acc ← aggregation_loop (length (shape tree_depth_data)) D
              tree_depth_data tree_depth_mask [(tree_depth_data, tree_depth_mask)];
      Ok (reverse acc)
  end.

(** [TreeMemory.tree_generator] *)
Definition tree_generator (branch_factor : nat) (node_data : tensor)
    : result (list level) :=
  match shape node_data with
  | [B; N; D] =>
      let k := branch_depth float_floor_log branch_factor N in
      P ← leaf_group_size branch_factor k N;
      '(tree_depth_data, tree_depth_mask) ←
        pad_node_data float_floor_log branch_factor node_data;
      let branches := replicate (Z.to_nat k) branch_factor in
      tree_depth_data ← reshape ([B] ++ branches ++ [P; D]) tree_depth_data;
      tree_depth_mask ← reshape ([B] ++ branches ++ [P; 1]) tree_depth_mask;
      bottom_up_aggregation tree_depth_data tree_depth_mask
  | _ => Err ValueError
  end.

End Aggregation.

(** ** Per-level loss tracker *)

(** [self.mean_mlp_loss = {i: (0, 0.0) for i in range(6)}] *)
Definition init_mean_mlp_loss : gmap nat (nat * Q) :=
  list_to_map ((fun i => (i, (0, 0%Q))) <$> seq 0 6).

(** [TreeMemory.track_mlp_loss] *)
Definition track_mlp_loss (i : nat) (loss : Q) (mean_mlp_loss : gmap nat (nat * Q))
    : result (gmap nat (nat * Q)) :=
  match mean_mlp_loss !! i with
  | None => Err KeyError
  | Some (count, mean) =>
      let count := count + 1 in
      let mean := (mean + (loss - mean) / inject_Z (Z.of_nat count))%Q in
      Ok (<[i := (count, mean)]> mean_mlp_loss)
  end.

(** Feeding the losses [ls] to level [i], first to last. *)
Fixpoint track_all (i : nat) (ls : list Q) (mean_mlp_loss : gmap nat (nat * Q))
    : result (gmap nat (nat * Q)) :=
  match ls with
  | [] => Ok mean_mlp_loss
  | l :: ls' => st ← track_mlp_loss i l mean_mlp_loss; track_all i ls' st
  end.

Definition Qsum (ls : list Q) : Q := foldr Qplus 0%Q ls.

(** ** Top-down retrieval *)

(** The tensors of the retrieval path have rank three, [B, n, D]; they are
    nested lists, batch first, and are meant rectangular with [B >= 1]. *)
Abbreviation t3 := (list (list (list Q))).

(** [torch.ones(B, n, D)] *)
Definition ones3 (B n D : nat) : t3 := replicate B (replicate n (replicate D 1%Q)).

(** [x.shape[1]] *)
Definition dim1 (x : t3) : nat :=
  match x with
  | [] => 0
  | r :: _ => length r
  end.

(** Every vector of [x] satisfies [p] on its length. *)
Definition last_dim_ok (p : nat -> bool) (x : t3) : bool :=
  forallb (forallb (fun v => p (length v))) x.

Definition dot (x y : list Q) : Q := Qsum (zip_with Qmult x y).

(** [rearrange(x, 'B b 1 -> B 1 b')], also [x.transpose(1, 2)] on [B, b, 1]. *)
Definition rearrange_b1 (x : t3) : t3 := (fun rows : list (list Q) => [concat rows]) <$> x.

(** A layer [nn.Linear(64, 64, bias=False)] with weight [W] applied to [x]. *)
Definition linear64 (W : list (list Q)) (x : t3) : result t3 :=
  if last_dim_ok (Nat.eqb 64) x
  then Ok ((fun rows : list (list Q) => (fun v => dot v <$> W) <$> rows) <$> x)
  else Err RuntimeError.

(** [torch.einsum('bnd,bmd->bnm', p, q)], [p] of last dimension 64, for
    [q] of the same batch size and last dimension; dimensions of size 1 are
    not broadcast. *)
Definition einsum_bnd_bmd (p q : t3) : result t3 :=
  if (length p =? length q) && last_dim_ok (Nat.eqb 64) q
  then Ok (zip_with (fun pb qb : list (list Q) => (fun pn => dot pn <$> qb) <$> pb) p q)
  else Err RuntimeError.

(** Index of the first greatest entry, as [max(-1)[1]] returns it. *)
Fixpoint argmax_from (best : Q) (besti i : nat) (l : list Q) : nat :=
  match l with
  | [] => besti
  | x :: l' =>
      if Qle_bool x best then argmax_from best besti (S i) l'
      else argmax_from x i (S i) l'
  end.

Definition argmax (l : list Q) : nat :=
  match l with
  | [] => 0
  | x :: l' => argmax_from x 0 1 l'
  end.

(** [torch.gather(layer, dim=1, index=sel.unsqueeze(-1).expand(-1, -1, 64))]
    for [sel] of shape [B, 1]. *)
Definition gather64 (layer : t3) (sel : list nat) : result t3 :=
  if (length sel <=? length layer)
     && last_dim_ok (Nat.leb 64) layer
     && forallb (fun p => p.2 <? length p.1) (zip layer sel)
  then Ok (zip_with (fun rows idx => [take 64 (default [] (rows !! idx))]) layer sel)
  else Err RuntimeError.

(** [1 - rearrange(sel, 'B 1 -> B 1 1')] *)
Definition selection_mask (sel : list nat) : t3 :=
  (fun idx => [[inject_Z (1 - Z.of_nat idx)]]) <$> sel.

(** [torch.cat(ts, dim=1)] *)
Definition cat1 (ts : list t3) : result t3 :=
  match ts with
  | [] => Err RuntimeError
  | t :: ts' =>
      let d := match concat t with [] => 0 | v :: _ => length v end in
      if forallb (fun u => (length u =? length t) && last_dim_ok (Nat.eqb d) u) ts
      then Ok (foldr (zip_with app) (replicate (length t) []) ts)
      else Err RuntimeError
  end.

(** [F.mse_loss(a, b)] for tensors of one shape. *)
Definition mse_loss (a b : t3) : Q :=
  let sq := zip_with (fun x y => (x - y) * (x - y))%Q (concat (concat a)) (concat (concat b)) in
  (Qsum sq / inject_Z (Z.of_nat (length sq)))%Q.

(** [quit()] raises [SystemExit]. *)
Definition quit : result unit := Err SystemExit.

(** The module instance. *)
Record TreeMemory : Type := mkTreeMemory {
  norm_first : bool;
  training : bool;
  branch_factor : nat;
  mlps : list (list (list Q));              (* six weights of nn.Linear(64, 64) *)
  mean_mlp_loss : gmap nat (nat * Q);
  train_tree_data : list level
}.

(** What the [for] loop of [tree_retrieval] builds. *)
Record descent : Type := mkDescent {
  selected_data_embeddings : list t3;
  selected_data_masks : list t3;
  entropy_att_scores_list : list (list (list Q));
  log_branch_sel_prob_list : list (list Q);
  loss_table : gmap nat (nat * Q)
}.

(** Conversion of a stored level, flattened to [B, n, D], to nested form. *)
Definition to_t3 (B n D : nat) (l : list Q) : t3 := chunks D n <$> chunks (n * D) B l.

Section Retrieval.

(** The attention block [self.query_model] (models/attention_modules.py),
    called on query, key, value and source mask; with [return_info=True]
    it returns (embedding, mean attention per node, attention weights). *)
Variable query_model_info : t3 -> t3 -> t3 -> t3 -> result (t3 * t3 * t3).
Variable query_model : t3 -> t3 -> t3 -> t3 -> result t3.
(** The feed-forward block [self.query_ff]. *)
Variable query_ff : t3 -> result t3.
(** [torch.log] on one entry. *)
Variable qlog : Q -> Q.

(** The random source.  [rand_unit i b c] is entry [b, 0, c] of the
    [torch.rand(B, 1, 2)] drawn at level [i]; [sample i b w] is the index
    [torch.multinomial] draws for row [b] with weights [w] at level [i];
    [fresh i m] are the parameters of the [nn.Linear] that [use_mlps]
    creates at level [i]: weight [m] for [m] below the input width, and
    the bias at the input width. *)
Variable rand_unit : nat -> nat -> nat -> Q.
Variable sample : nat -> nat -> list Q -> nat.
Variable fresh : nat -> nat -> Q.

Definition torch_rand (i B : nat) : t3 :=
  (fun b => [[rand_unit i b 0; rand_unit i b 1]]) <$> seq 0 B.

Definition multinomial (i : nat) (w : list (list Q)) : list nat :=
  imap (sample i) w.

(** [TreeMemory.use_mlps] *)
Definition use_mlps (self : TreeMemory) (i : nat) (query_data layer_data_embeddings : t3)
    : result t3 :=
  match mlps self !! i with
  | None => Err IndexError
  | Some W =>
      projected ← linear64 W layer_data_embeddings;
      decision_tensor ← einsum_bnd_bmd projected query_data;
      let M := dim1 query_data in
      let w := fresh i <$> seq 0 M in
      let c := fresh i M in
      let decision_tensor :=
        (fun rows : list (list Q) => (fun r => [(dot r w + c)%Q]) <$> rows) <$> decision_tensor in
      Ok (rearrange_b1 decision_tensor)
  end.

(** One pass of the loop body below the [break]. *)
Definition descend_level (self : TreeMemory) (B i : nat) (query_data : t3)
    (layer_data_embeddings layer_data_mask : t3) (s : descent) : result descent :=
  if training self then
    '(_, _, search_att_weight) ←
      query_model_info query_data layer_data_embeddings layer_data_embeddings
        (rearrange_b1 layer_data_mask);
    let level_search_att_weight_mean_nodes := torch_rand i B in
    decision_tensor ← use_mlps self i query_data layer_data_embeddings;
    let loss := mse_loss level_search_att_weight_mean_nodes decision_tensor in
    table ← track_mlp_loss i loss (loss_table s);
    let selected_indices := multinomial i (concat level_search_att_weight_mean_nodes) in
    tree_search_level_embeddings ← gather64 layer_data_embeddings selected_indices;
    let tree_search_level_mask := selection_mask selected_indices in
    let entropy :=
      (fun rows : list (list Q) =>
         (fun r : list Q => Qsum ((fun p => - p * qlog (p + (1 # 1000000000)))%Q <$> r))
           <$> rows) <$> search_att_weight in
    let log_branch_sel_prob :=
      zip_with (fun r idx => qlog (default 0%Q (r !! idx)))
        (concat level_search_att_weight_mean_nodes) selected_indices in
    Ok (mkDescent
          (selected_data_embeddings s ++ [tree_search_level_embeddings])
          (selected_data_masks s ++ [tree_search_level_mask])
          (entropy_att_scores_list s ++ [entropy])
          (log_branch_sel_prob_list s ++ [log_branch_sel_prob])
          table)
  else
    level_search_att_weight_mean_nodes ← use_mlps self i query_data layer_data_embeddings;
    let selected_indices := argmax <$> concat level_search_att_weight_mean_nodes in
    tree_search_level_embeddings ← gather64 layer_data_embeddings selected_indices;
    let tree_search_level_mask := selection_mask selected_indices in
    Ok (mkDescent
          (selected_data_embeddings s ++ [tree_search_level_embeddings])
          (selected_data_masks s ++ [tree_search_level_mask])
          (entropy_att_scores_list s)
          (log_branch_sel_prob_list s)
          (loss_table s)).

(** The [for] loop of [tree_retrieval], from index [i] on: [todo] is
    [filtered_tree_data[i:]] and [len] is [len(filtered_tree_data)]. *)
Fixpoint descend (self : TreeMemory) (B D len : nat) (query_data : t3)
    (todo : list level) (i : nat) (s : descent) : result descent :=
  match todo with
  | [] => Ok s
  | (_, _) :: rest =>
      (* the stored pair is read and replaced at once *)
      let layer_data_embeddings := ones3 B 2 D in
      let layer_data_mask := ones3 B 2 1 in
      if i =? len - 1 then
        Ok (mkDescent
              (selected_data_embeddings s ++ [layer_data_embeddings])
              (selected_data_masks s ++ [layer_data_mask])
              (entropy_att_scores_list s)
              (log_branch_sel_prob_list s)
              (loss_table s))
      else
        s' ← descend_level self B i query_data layer_data_embeddings layer_data_mask s;
        descend self B D len query_data rest (S i) s'
  end.

(** The selections [tree_retrieval] has made when it leaves its loop. *)
Definition tree_descent (self : TreeMemory) (query_data : t3) : result descent :=
  match train_tree_data self with
  | [] => Err IndexError
  | (root, _) :: filtered_tree_data =>
      match last (shape root) with
      | None => Err IndexError
      | Some D =>
          descend self (length query_data) D (length filtered_tree_data) query_data
            filtered_tree_data 0
            (mkDescent [] [] [] [] (mean_mlp_loss self))
      end
  end.

(** [TreeMemory.tree_retrieval]; the last component is the updated
    [self.mean_mlp_loss]. *)
Definition tree_retrieval (self : TreeMemory) (query_data : t3)
    : result (t3 * list (list (list Q)) * list (list Q) * gmap nat (nat * Q)) :=
  s ← tree_descent self query_data;
  search_data_embeddings ← cat1 (selected_data_embeddings s);
  search_data_masks ← cat1 (selected_data_masks s);
  let search_data_masks := rearrange_b1 search_data_masks in
  pred_emb ← query_model query_data search_data_embeddings search_data_embeddings
               search_data_masks;
  _ ← quit;
  Ok (pred_emb, entropy_att_scores_list s, log_branch_sel_prob_list s, loss_table s).

(** [TreeMemory.tree_leaves_retrieval] *)
Definition tree_leaves_retrieval (self : TreeMemory) (query_data : t3) : result t3 :=
  match last (train_tree_data self) with
  | None => Err IndexError
  | Some (leaf_data_embeddings, leaf_data_mask) =>
      match shape leaf_data_embeddings, last (shape leaf_data_embeddings) with
      | B :: _, Some D =>
          let n := length (data leaf_data_embeddings) / (B * D) in
          let M := dim1 query_data in
          let emb := to_t3 B n D (data leaf_data_embeddings) in
          let mask := (fun row : list Q => replicate M row) <$> chunks n B (data leaf_data_mask) in
          query_model query_data emb emb mask
      | _, _ => Err IndexError
      end
  end.

(** The two values [process_rl_terms] returns: a scalar, or one entry per
    batch element. *)
Inductive rl_term : Type :=
  | Scalar (x : Q)
  | PerBatch (xs : list Q).

(** [TreeMemory.process_rl_terms], for per-level tensors of one shape, as the
    descent appends them. *)
Definition process_rl_terms (entropy_att_scores_list : list (list (list Q)))
    (log_branch_sel_prob_list : list (list Q)) : Q * rl_term :=
  let entropy_scores :=
    match entropy_att_scores_list with
    | [] => 0%Q
    | _ =>
        let all := concat (concat entropy_att_scores_list) in
        (Qsum all / inject_Z (Z.of_nat (length all)))%Q
    end in
  let log_action_probs :=
    match log_branch_sel_prob_list with
    | [] => Scalar 0%Q
    | l :: ls => PerBatch (foldl (zip_with Qplus) l ls)
    end in
  (entropy_scores, log_action_probs).

(** What [retrieve] hands back: the embedding alone, or the five values of
    the training branch. *)
Inductive retrieved : Type :=
  | Embedding (ret_emb : t3)
  | Training (ret_emb leaf_ret_emb : t3) (entropy_scores : Q)
      (log_action_probs : rl_term) (mean_mlp_loss : gmap nat (nat * Q)).

Definition add3 (x y : t3) : t3 := zip_with (zip_with (zip_with Qplus)) x y.

(** [TreeMemory.retrieve] *)
Definition retrieve (self : TreeMemory) (query_data : t3) : result retrieved :=
  '(pred_emb, entropy_att_scores_list, log_branch_sel_prob_list, table) ←
    tree_retrieval self query_data;
  ret_emb ← query_ff (if norm_first self then add3 pred_emb query_data else pred_emb);
  if negb (training self) then Ok (Embedding ret_emb)
  else
    leaf_pred_emb ← tree_leaves_retrieval self query_data;
    let '(entropy_scores, log_action_probs) :=
      process_rl_terms entropy_att_scores_list log_branch_sel_prob_list in
    leaf_ret_emb ←
      query_ff (if norm_first self then add3 leaf_pred_emb query_data else leaf_pred_emb);
    Ok (Training ret_emb leaf_ret_emb entropy_scores log_action_probs table).

End Retrieval.

Section Setup.

Variable aggregator : tensor -> tensor -> tensor.
Variable float_floor_log : nat -> nat -> Z.

(** [TreeMemory.setup_data]: on success the table is replaced. *)
Definition setup_data (self : TreeMemory) (layer_data : tensor) : result TreeMemory :=
  table ← tree_generator aggregator float_floor_log (branch_factor self) layer_data;
  Ok (mkTreeMemory (norm_first self) (training self) (branch_factor self) (mlps self)
        (mean_mlp_loss self) table).

(** [TreeMemory.reset] *)
Definition reset (self : TreeMemory) : TreeMemory :=
  mkTreeMemory (norm_first self) (training self) (branch_factor self) (mlps self)
    (mean_mlp_loss self) [].

End Setup.

(** ** Notions used in the statements *)

(** Number of filler items for [N] items, branch factor [b] and depth [k]. *)
Definition pad_count (b k N : nat) : nat := ceil_div N (b ^ k) * b ^ k - N.

(** One batch element of the padded data and of the mask. *)
Definition padded_row (pad D : nat) (row : list Q) : list Q :=
  row ++ (add_eps <$> take (pad * D) row).

Definition mask_row (N pad : nat) : list Q := replicate N 1%Q ++ replicate pad 0%Q.

(** A natural number as a rational. *)
Definition Qnat (n : nat) : Q := inject_Z (Z.of_nat n).

(** What the tree builder needs from the set aggregator: one parent of
    dimension [D] for each of the [G] groups. *)
Definition aggregator_ok (aggregator : tensor → tensor → tensor) : Prop :=
  ∀ x m G n D, shape x = [G; n; D] → wf x →
    shape (aggregator x m) = [G; 1; D] ∧ wf (aggregator x m).

(** The pair one pass of the aggregation loop appends. *)
Definition parent_level (aggregator : tensor → tensor → tensor)
    (lead : list nat) (n D : nat) (td tm : tensor) : level :=
  (mkTensor (lead ++ [D])
     (data (aggregator (mkTensor [numel lead; n; D] (data td))
                       (mkTensor [numel lead; n; 1] (data tm)))),
   mkTensor (lead ++ [1]) (any_children n (numel lead) (data tm))).


(** The part of [use_mlps] before the new linear layer: the level's layer
    applied to the children, contracted with the queries. *)
Definition mlp_decision (self : TreeMemory) (i : nat) (query_data layer_data_embeddings : t3)
    : result t3 :=
  match mlps self !! i with
  | None => Err IndexError
  | Some W =>
      projected ← linear64 W layer_data_embeddings;
      einsum_bnd_bmd projected query_data
  end.

(** The new linear layer of [use_mlps] and the rearrangement after it. *)
Definition fresh_linear (fresh : nat → nat → Q) (i M : nat) (decision_tensor : t3) : t3 :=
  rearrange_b1
    ((fun rows : list (list Q) =>
        (fun r => [(dot r (fresh i <$> seq 0 M) + fresh i M)%Q]) <$> rows) <$> decision_tensor).

(** Every entry of a tensor is 1. *)
Definition all_ones (x : t3) : Prop := Forall (Forall (Forall (fun v => v = 1%Q))) x.


(** The instance with another stored table. *)
Definition with_table (self : TreeMemory) (table : list level) : TreeMemory :=
  mkTreeMemory (norm_first self) (training self) (branch_factor self) (mlps self)
    (mean_mlp_loss self) table.

(** [self.train_tree_data[0][0].shape[-1]] *)
Definition root_dim (table : list level) : option nat :=
  match table with
  | (root, _) :: _ => last (shape root)
  | [] => None
  end.

(** The mask of node [g] of a batch element when each node of the level
    spans [size] consecutive item positions: 1 when its first position
    holds a real item. *)
Definition node_mask (N size g : nat) : Q := if g * size <? N then 1%Q else 0%Q.

(** The loop bound of the model was reached. *)
Definition out_of_fuel {A} (r : result A) : bool :=
  match r with
  | Err OutOfFuel => true
  | _ => false
  end.

(** Every entry of a tensor is 0 or 1. *)
Definition binary (x : t3) : Prop :=
  Forall (Forall (Forall (fun v => v = 0%Q ∨ v = 1%Q))) x.

(** ** Sample inputs *)

(** A stand-in for the floored float32 quotient, with the values torch
    computes at the inputs used below.  For [n = 8192] and [b = 2] the
    float32 logarithms are 9.0109129 (0x41102cb3) and 0.69314718
    (0x3f317218) and their float32 quotient is 12.999999 (0x414fffff), so
    the floor is 12.  At the other inputs used below the floor is the exact
    one: with [b = 2] the quotient is 2.0 for [n = 4], 1.0 for [n = 2] and
    1.5849625 for [n = 3]; with [b = 3] it is 1.0 for [n = 3]. *)
Definition sample_floor_log (b n : nat) : Z :=
  if (b =? 2) && (n =? 2 ^ 13) then 12%Z else Z.of_nat (floor_log b n).

(** Five scalar items in one batch element. *)
Definition items5 : tensor := mkTensor [1; 5; 1] [1; 2; 3; 4; 5]%Q.

(** Three scalar items, the first one [-1e-5]. *)
Definition items3 : tensor := mkTensor [1; 3; 1] [- eps; 2; 3]%Q.

(** A single scalar item in each of two batch elements. *)
Definition items1 : tensor := mkTensor [2; 1; 1] [1; 2]%Q.

(** An aggregator that answers zero for every group. *)
Definition zero_aggregator (x m : tensor) : tensor :=
  match shape x with
  | [G; n; D] => mkTensor [G; 1; D] (replicate (G * D) 0%Q)
  | _ => x
  end.

(** A module instance with branch factor 2 and no tree yet. *)
Definition fresh_memory (training : bool) : TreeMemory :=
  mkTreeMemory true training 2 (replicate 6 (replicate 64 (replicate 64 0%Q)))
    init_mean_mlp_loss [].

(** Stand-ins for the collaborators and for the random source. *)
Definition sample_query_model_info (q k v m : t3) : result (t3 * t3 * t3) :=
  Ok (q, m, (fun _ : list (list Q) => [[1 # 2; 1 # 2]]%Q) <$> q).

Definition sample_query_model (q k v m : t3) : result t3 := Ok q.

Definition sample_query_ff (x : t3) : result t3 := Ok x.

Definition sample_log (x : Q) : Q := (x - 1)%Q.

Definition sample_rand_unit (i b c : nat) : Q := 1 # Pos.of_nat (i + b + c + 2).

Definition sample_choice (i b : nat) (w : list Q) : nat := (i + b) `mod` 2.

Definition sample_fresh (i m : nat) : Q := Qnat (i + m).

(** Another draw of the new layer's parameters. *)
Definition sample_fresh' (i m : nat) : Q := (- Qnat (2 * i + m + 7))%Q.

(** Five items of dimension 64 in one batch element, the tree built from
    them with branch factor 2, and one query. *)
Definition items5x64 : tensor := mkTensor [1; 5; 64] (replicate 320 1%Q).

Definition sample_table : list level :=
  match tree_generator zero_aggregator sample_floor_log 2 items5x64 with
  | Ok table => table
  | Err _ => []
  end.

Definition sample_memory (training : bool) : TreeMemory :=
  with_table (fresh_memory training) sample_table.

Definition sample_query : t3 := [[replicate 64 1%Q]].

(** * Properties *)

(** ** Arithmetic of the tree shape *)

Lemma floor_log_fuel_spec (fuel b n : nat) :
  2 ≤ b → 1 ≤ n → n ≤ fuel →
  b ^ floor_log_fuel fuel b n ≤ n < b ^ S (floor_log_fuel fuel b n).
Proof.
  intros Hb. revert n.
  induction fuel as [|fuel IH]; intros n Hn Hfuel; [lia|].
  cbn [floor_log_fuel].
  destruct (Nat.ltb_spec n b) as [Hlt|Hge].
  - cbn. lia.
  - pose proof (Nat.div_mod_eq n b) as Hdm.
    pose proof (Nat.mod_upper_bound n b ltac:(lia)) as Hmod.
    assert (1 ≤ n / b) as Hq by (apply Nat.div_le_lower_bound; lia).
    assert (n / b ≤ fuel) as Hq' by nia.
    destruct (IH (n / b) Hq Hq') as [Hlo Hhi].
    rewrite !Nat.pow_succ_r' in *. nia.
Qed.

Lemma floor_log_spec (b n : nat) :
  2 ≤ b → 1 ≤ n → b ^ floor_log b n ≤ n < b ^ S (floor_log b n).
Proof. intros Hb Hn. apply floor_log_fuel_spec; lia. Qed.

Lemma ceil_div_spec (N d : nat) :
  0 < d → N ≤ ceil_div N d * d < N + d.
Proof.
  intros Hd. unfold ceil_div.
  pose proof (Nat.div_mod_eq (N + d - 1) d) as Hdm.
  pose proof (Nat.mod_upper_bound (N + d - 1) d ltac:(lia)) as Hmod.
  nia.
Qed.

Lemma pow_pos (b k : nat) : 1 ≤ b → 1 ≤ b ^ k.
Proof. intros Hb. induction k as [|k IH]; cbn; nia. Qed.

(** For at least two items the depth is the floored float32 quotient. *)
Lemma branch_depth_items (fl : nat → nat → Z) (b N : nat) :
  2 ≤ N → branch_depth fl b N = fl b (N - 1).
Proof.
  intros HN. unfold branch_depth.
  destruct (Nat.eqb_spec (N - 1) 0); [lia|done].
Qed.

(** A depth that is not negative comes from at least two items. *)
Lemma branch_depth_nonneg (fl : nat → nat → Z) (b N k : nat) :
  branch_depth fl b N = Z.of_nat k → 2 ≤ N.
Proof.
  unfold branch_depth. destruct (Nat.eqb_spec (N - 1) 0); [|lia].
  unfold INT_MIN. lia.
Qed.

(** With a depth that is not negative the leaf groups are sized without
    error. *)
Lemma leaf_group_size_ok (b k N : nat) :
  2 ≤ b → leaf_group_size b (Z.of_nat k) N = Ok (ceil_div N (b ^ k)).
Proof.
  intros Hb. unfold leaf_group_size.
  destruct (Z.leb_spec 0 (Z.of_nat k)); [|lia].
  rewrite Nat2Z.id.
  pose proof (pow_pos b k ltac:(lia)).
  destruct (Nat.eqb_spec (b ^ k) 0); [lia|done].
Qed.

(** With a negative depth sizing the leaf groups raises. *)
Lemma leaf_group_size_neg (b : nat) (k : Z) (N : nat) :
  (k < 0)%Z → ∃ e, leaf_group_size b k N = Err e.
Proof.
  intros Hk. unfold leaf_group_size.
  destruct (Z.leb_spec 0 k); [lia|].
  repeat match goal with |- context [if ?c then _ else _] => destruct c end; eauto.
Qed.

(** The padded length is the least multiple of [b ^ k] that holds the
    items; the fillers are fewer than [b ^ k], and at most as many as the
    items when [b ^ k <= 2 * N]. *)
Lemma pad_count_bound (b k N : nat) :
  2 ≤ b →
  N ≤ ceil_div N (b ^ k) * b ^ k ∧
  pad_count b k N < b ^ k ∧
  (b ^ k ≤ 2 * N → pad_count b k N ≤ N).
Proof.
  intros Hb. unfold pad_count.
  pose proof (pow_pos b k ltac:(lia)) as Hpow.
  pose proof (ceil_div_spec N (b ^ k) ltac:(lia)) as [H1 H2].
  set (P := ceil_div N (b ^ k)) in *. set (d := b ^ k) in *.
  split; [done|]. split; [lia|]. intros Hfit.
  destruct (decide (d ≤ N)) as [Hle|Hgt]; [lia|].
  assert (P * d < 2 * d) as HP by lia.
  apply Nat.mul_lt_mono_pos_r in HP; [|lia]. nia.
Qed.

Lemma pad_total (b k N : nat) :
  2 ≤ b → N + pad_count b k N = ceil_div N (b ^ k) * b ^ k.
Proof. intros Hb. destruct (pad_count_bound b k N Hb) as [H _]. unfold pad_count. lia. Qed.

(** ** Blocks of a flat list *)

Section Chunks.
Context {A : Type}.
Implicit Types l : list A.

Lemma length_chunks sz cnt l : length (chunks sz cnt l) = cnt.
Proof. revert l. induction cnt as [|cnt IH]; intros l; cbn; [done|]. by rewrite IH. Qed.

Lemma chunks_lookup sz cnt l i :
  i < cnt → chunks sz cnt l !! i = Some (take sz (drop (i * sz) l)).
Proof.
  revert l i. induction cnt as [|cnt IH]; intros l i Hi; [lia|].
  destruct i as [|i]; cbn.
  - done.
  - rewrite IH by lia. by rewrite drop_drop.
Qed.

Lemma chunks_Forall_length sz cnt l :
  cnt * sz ≤ length l → Forall (fun c => length c = sz) (chunks sz cnt l).
Proof.
  revert l. induction cnt as [|cnt IH]; intros l Hl; cbn; constructor.
  - rewrite length_take. lia.
  - apply IH. rewrite length_drop. lia.
Qed.

Lemma concat_chunks sz cnt l :
  length l = cnt * sz → concat (chunks sz cnt l) = l.
Proof.
  revert l. induction cnt as [|cnt IH]; intros l Hl; cbn.
  - symmetry. apply nil_length_inv. lia.
  - rewrite IH; [apply take_drop|]. rewrite length_drop. lia.
Qed.

Lemma chunks_concat sz (ls : list (list A)) :
  Forall (fun c => length c = sz) ls → chunks sz (length ls) (concat ls) = ls.
Proof.
  induction 1 as [|c ls Hc _ IH]; cbn; [done|].
  rewrite take_app_length', drop_app_length' by done. by rewrite IH.
Qed.

Lemma length_concat_uniform sz (ls : list (list A)) :
  Forall (fun c => length c = sz) ls → length (concat ls) = length ls * sz.
Proof.
  induction 1 as [|c ls Hc _ IH]; cbn; [done|].
  rewrite length_app, IH. lia.
Qed.

Lemma lookup_concat_uniform sz (ls : list (list A)) i j :
  Forall (fun c => length c = sz) ls → j < sz →
  concat ls !! (i * sz + j) = ls !! i ≫= (fun c => c !! j).
Proof.
  intros Hls Hj. revert i.
  induction Hls as [|c ls Hc _ IH]; intros i; cbn; [done|].
  destruct i as [|i]; cbn.
  - rewrite lookup_app_l by lia. done.
  - rewrite lookup_app_r by lia.
    replace (sz + i * sz + j - length c) with (i * sz + j) by lia.
    apply IH.
Qed.
End Chunks.

(** ** The padder *)

Lemma pad_node_data_eq (fl : nat → nat → Z) (b k : nat) (t : tensor) (B N D : nat) :
  shape t = [B; N; D] → 2 ≤ b →
  branch_depth fl b N = Z.of_nat k → pad_count b k N ≤ N →
  pad_node_data fl b t =
    Ok (mkTensor [B; N + pad_count b k N; D]
          (concat (padded_row (pad_count b k N) D <$> chunks (N * D) B (data t))),
        mkTensor [B; N + pad_count b k N; 1]
          (concat (replicate B (mask_row N (pad_count b k N))))).
Proof.
  intros Hsh Hb Hk Hpad. unfold pad_node_data. rewrite Hsh, Hk.
  rewrite leaf_group_size_ok by done. cbn [mbind result_bind].
  rewrite Nat2Z.id.
  destruct (pad_count_bound b k N Hb) as [Hge _].
  set (P := ceil_div N (b ^ k)) in *.
  set (d := b ^ k) in *.
  assert (Z.to_nat (Z.of_nat (P * d) - Z.of_nat N) = pad_count b k N) as Hpad'
    by (unfold pad_count; fold d P; lia).
  destruct (Z.ltb_spec (Z.of_nat (P * d) - Z.of_nat N) 0); [lia|].
  rewrite Hpad'.
  destruct (decide (pad_count b k N `min` N = pad_count b k N)) as [_|Hne]; [done|lia].
Qed.

(** More fillers than items: the slice assignment raises. *)
Lemma pad_node_data_overflow (fl : nat → nat → Z) (b k : nat) (t : tensor) (B N D : nat) :
  shape t = [B; N; D] → 2 ≤ b →
  branch_depth fl b N = Z.of_nat k → N < pad_count b k N →
  pad_node_data fl b t = Err RuntimeError.
Proof.
  intros Hsh Hb Hk Hpad. pose proof (branch_depth_nonneg fl b N k Hk) as HN.
  unfold pad_node_data. rewrite Hsh, Hk.
  rewrite leaf_group_size_ok by done. cbn [mbind result_bind].
  rewrite Nat2Z.id.
  destruct (pad_count_bound b k N Hb) as [Hge _].
  set (P := ceil_div N (b ^ k)) in *.
  set (d := b ^ k) in *.
  assert (Z.to_nat (Z.of_nat (P * d) - Z.of_nat N) = pad_count b k N) as Hpad'
    by (unfold pad_count; fold d P; lia).
  destruct (Z.ltb_spec (Z.of_nat (P * d) - Z.of_nat N) 0); [lia|].
  rewrite Hpad'.
  destruct (decide (pad_count b k N `min` N = pad_count b k N)) as [Heq|_]; [lia|].
  destruct (decide (pad_count b k N `min` N = 1)) as [Heq|_]; [lia|done].
Qed.

Lemma Qsum_replicate_0 (n : nat) : (Qsum (replicate n 0%Q) == 0)%Q.
Proof. induction n as [|n IH]; cbn; [reflexivity|]. rewrite IH. reflexivity. Qed.

Lemma Qsum_app (l1 l2 : list Q) : (Qsum (l1 ++ l2) == Qsum l1 + Qsum l2)%Q.
Proof.
  induction l1 as [|x l1 IH]; cbn.
  - rewrite Qplus_0_l. reflexivity.
  - rewrite IH. apply Qplus_assoc.
Qed.

Lemma Qsum_replicate_1 (n : nat) : (Qsum (replicate n 1%Q) == inject_Z (Z.of_nat n))%Q.
Proof.
  induction n as [|n IH]; [reflexivity|].
  cbn [replicate Qsum foldr]. fold (Qsum (replicate n 1%Q)). rewrite IH.
  rewrite Nat2Z.inj_succ, <- Z.add_1_l, inject_Z_plus. reflexivity.
Qed.

Lemma Qsum_mask_row (N pad : nat) : (Qsum (mask_row N pad) == inject_Z (Z.of_nat N))%Q.
Proof.
  unfold mask_row. rewrite Qsum_app, Qsum_replicate_0, Qsum_replicate_1.
  apply Qplus_0_r.
Qed.

Lemma length_mask_row (N pad : nat) : length (mask_row N pad) = N + pad.
Proof. unfold mask_row. by rewrite length_app, !length_replicate. Qed.

Lemma Forall_replicate_eq {A} (P : A → Prop) (n : nat) (x : A) :
  P x → Forall P (replicate n x).
Proof. intros Hx. induction n; cbn; constructor; done. Qed.

Lemma length_padded_row (pad D N : nat) (row : list Q) :
  length row = N * D → pad ≤ N → length (padded_row pad D row) = (N + pad) * D.
Proof.
  intros Hrow Hpad. unfold padded_row.
  rewrite length_app, length_fmap, length_take. nia.
Qed.

(** The rows of a mask tensor built by the padder. *)
Lemma mask_rows (B N pad i : nat) :
  i < B →
  take (N + pad) (drop (i * (N + pad)) (concat (replicate B (mask_row N pad))))
  = mask_row N pad.
Proof.
  intros Hi.
  pose proof (chunks_lookup (N + pad) B (concat (replicate B (mask_row N pad))) i Hi) as Hl.
  rewrite <- (length_replicate B (mask_row N pad)) in Hl at 1.
  rewrite chunks_concat in Hl
    by (apply Forall_replicate_eq, length_mask_row).
  rewrite lookup_replicate_2 in Hl by done. by inversion Hl.
Qed.

(** Entry [i, j, d] of the padded data, read off the rows of the input. *)
Lemma padded_lookup (t : tensor) (B N D pad i j d : nat) :
  length (data t) = B * (N * D) → pad ≤ N → i < B → j < N + pad → d < D →
  concat (padded_row pad D <$> chunks (N * D) B (data t)) !! ((i * (N + pad) + j) * D + d)
  = if decide (j < N) then data t !! ((i * N + j) * D + d)
    else add_eps <$> data t !! ((i * N + (j - N)) * D + d).
Proof.
  intros Hlen Hpad Hi Hj Hd.
  replace ((i * (N + pad) + j) * D + d) with (i * ((N + pad) * D) + (j * D + d)) by lia.
  rewrite (lookup_concat_uniform ((N + pad) * D)); [| |nia].
  2:{ apply Forall_fmap. eapply Forall_impl; [apply (chunks_Forall_length (N * D) B); lia|].
      intros row Hrow. cbn. by apply length_padded_row. }
  rewrite list_lookup_fmap, chunks_lookup by done. cbn.
  unfold padded_row.
  assert (length (take (N * D) (drop (i * (N * D)) (data t))) = N * D) as Hrowlen.
  { rewrite length_take, length_drop.
    pose proof (Nat.mul_le_mono_r (S i) B (N * D) ltac:(lia)) as Hle.
    rewrite Nat.mul_succ_l in Hle. lia. }
  destruct (decide (j < N)) as [Hlt|Hge].
  - rewrite lookup_app_l by (rewrite Hrowlen; nia).
    rewrite lookup_take_lt by nia. rewrite lookup_drop.
    by replace (i * (N * D) + (j * D + d)) with ((i * N + j) * D + d) by lia.
  - rewrite lookup_app_r by (rewrite Hrowlen; nia).
    rewrite Hrowlen, list_lookup_fmap.
    replace (j * D + d - N * D) with ((j - N) * D + d) by nia.
    rewrite lookup_take_lt by nia. rewrite lookup_take_lt by nia.
    rewrite lookup_drop.
    by replace (i * (N * D) + ((j - N) * D + d)) with ((i * N + (j - N)) * D + d) by lia.
Qed.

Lemma mask_lookup (B N pad i j : nat) :
  i < B → j < N + pad →
  concat (replicate B (mask_row N pad)) !! ((i * (N + pad) + j) * 1 + 0)
  = Some (if decide (j < N) then 1%Q else 0%Q).
Proof.
  intros Hi Hj.
  replace ((i * (N + pad) + j) * 1 + 0) with (i * (N + pad) + j) by lia.
  rewrite (lookup_concat_uniform (N + pad)); [| |done].
  2:{ apply Forall_replicate_eq, length_mask_row. }
  rewrite lookup_replicate_2 by done. cbn. unfold mask_row.
  destruct (decide (j < N)).
  - rewrite lookup_app_l by (rewrite length_replicate; lia).
    by rewrite lookup_replicate_2.
  - rewrite lookup_app_r by (rewrite length_replicate; lia).
    rewrite length_replicate. rewrite lookup_replicate_2 by lia. done.
Qed.

Lemma index3_bound (B N D i j d : nat) :
  i < B → j < N → d < D → (i * N + j) * D + d < B * (N * D).
Proof.
  intros Hi Hj Hd.
  assert (i * N + j + 1 ≤ B * N) as H1 by nia.
  pose proof (Nat.mul_le_mono_r _ _ D H1) as H2. lia.
Qed.

(** What the padder returns for the depth [k] the code derives, with
    [P = ceil(N / b^k)]: data of shape [B, P * b^k, D] and a mask of shape
    [B, P * b^k, 1] whose rows sum to [N]. *)
Lemma pad_node_data_spec (fl : nat → nat → Z) (b k : nat) (t : tensor) (B N D : nat) :
  shape t = [B; N; D] → wf t → 2 ≤ b →
  branch_depth fl b N = Z.of_nat k → pad_count b k N ≤ N →
  let P := ceil_div N (b ^ k) in
  ∃ td m,
    pad_node_data fl b t = Ok (td, m) ∧
    shape td = [B; P * b ^ k; D] ∧ wf td ∧
    shape m = [B; P * b ^ k; 1] ∧ wf m ∧
    ∀ i, i < B →
      (Qsum (take (P * b ^ k) (drop (i * (P * b ^ k)) (data m)))
       == inject_Z (Z.of_nat N))%Q.
Proof.
  intros Hsh Hwf Hb Hk Hpad P.
  pose proof (pad_total b k N Hb) as Htot. fold P in Htot.
  eexists _, _. split; [by apply (pad_node_data_eq fl b k t B N D)|]. cbn [shape data].
  rewrite Htot. split; [done|]. split.
  { unfold wf. cbn [shape data numel foldr].
    rewrite (length_concat_uniform ((N + pad_count b k N) * D)).
    - rewrite length_fmap, length_chunks. rewrite <- Htot. lia.
    - apply Forall_fmap. eapply Forall_impl.
      + apply (chunks_Forall_length (N * D) B).
        unfold wf in Hwf. rewrite Hsh in Hwf. cbn in Hwf. lia.
      + intros row Hrow. cbn. apply length_padded_row; [done|lia]. }
  split; [done|]. split.
  { unfold wf. cbn [shape data numel foldr].
    rewrite (length_concat_uniform (N + pad_count b k N))
      by apply Forall_replicate_eq, length_mask_row.
    rewrite length_replicate. lia. }
  intros i Hi. rewrite <- Htot. rewrite mask_rows by done. apply Qsum_mask_row.
Qed.

(** C5, at an input where the code departs from it.  For [N = 8193] items
    and branch factor 2 the claim has [k = floor(log_2 8192) = 13],
    [P = ceil(8193 / 2^13) = 2] and [2 * 2^13 = 16384] positions.  The
    float32 quotient of the two logarithms is 12.999999, its floor is 12:
    the code derives the depth 12, sizes the leaf groups at
    [P = ceil(8193 / 2^12) = 3] and the padder returns [3 * 2^12 = 12288]
    positions. *)
Theorem pad_node_data_float_depth (fl : nat → nat → Z) (t : tensor) (B D : nat) :
  fl 2 (2 ^ 13) = 12%Z → shape t = [B; 2 ^ 13 + 1; D] → wf t →
  (floor_log 2 (2 ^ 13) = 13 ∧ ceil_div (2 ^ 13 + 1) (2 ^ 13) = 2) ∧
  branch_depth fl 2 (2 ^ 13 + 1) = 12%Z ∧
  leaf_group_size 2 12 (2 ^ 13 + 1) = Ok 3 ∧
  ∃ td m,
    pad_node_data fl 2 t = Ok (td, m) ∧
    shape td = [B; 3 * 2 ^ 12; D] ∧ shape m = [B; 3 * 2 ^ 12; 1] ∧
    3 * 2 ^ 12 ≠ 2 * 2 ^ 13.
Proof.
  intros Hfl Hsh Hwf.
  split; [split; vm_compute; reflexivity|].
  pose proof (pow_pos 2 13 ltac:(lia)) as Hpow.
  assert (branch_depth fl 2 (2 ^ 13 + 1) = 12%Z) as Hk.
  { rewrite branch_depth_items by lia.
    replace (2 ^ 13 + 1 - 1) with (2 ^ 13) by lia. exact Hfl. }
  split; [exact Hk|]. split; [vm_compute; reflexivity|].
  destruct (pad_node_data_spec fl 2 12 t B (2 ^ 13 + 1) D Hsh Hwf ltac:(lia) Hk)
    as (td & m & Hrun & Hs1 & _ & Hs2 & _).
  { apply Nat.leb_le. vm_compute. reflexivity. }
  replace (ceil_div (2 ^ 13 + 1) (2 ^ 12)) with 3 in Hs1, Hs2 by (vm_compute; reflexivity).
  exists td, m. split; [exact Hrun|]. split; [exact Hs1|]. split; [exact Hs2|].
  intros Heq. apply (f_equal (fun n => n =? 2 * 2 ^ 13)) in Heq.
  vm_compute in Heq. discriminate.
Qed.

Lemma pad_node_data_float_depth_witness :
  ∃ td m,
    pad_node_data sample_floor_log 2
      (mkTensor [1; 2 ^ 13 + 1; 1] (replicate (2 ^ 13 + 1) 1%Q)) = Ok (td, m) ∧
    shape td = [1; 3 * 2 ^ 12; 1].
Proof.
  destruct (pad_node_data_float_depth sample_floor_log
              (mkTensor [1; 2 ^ 13 + 1; 1] (replicate (2 ^ 13 + 1) 1%Q)) 1 1)
    as (_ & _ & _ & (td & m & Hrun & Hsh & _)).
  - vm_compute. reflexivity.
  - reflexivity.
  - unfold wf. cbn [shape data numel foldr]. rewrite length_replicate. lia.
  - exists td, m. split; [exact Hrun|exact Hsh].
Defined.

(** C7, as the code has it.  With the depth [k] the code derives and
    [pad = ceil(N / b^k) * b^k - N] fillers: the first [N] positions of the
    padded data are the items, with mask 1; position [j >= N] holds item
    [j - N], one of the first [pad] items, with [1e-5] added to every
    entry, and has mask 0.  Such an entry is zero exactly when the copied
    entry is [-1e-5]. *)
Theorem pad_node_data_layout (fl : nat → nat → Z) (b k : nat) (t : tensor) (B N D : nat) :
  shape t = [B; N; D] → wf t → 2 ≤ N → 2 ≤ b →
  branch_depth fl b N = Z.of_nat k → b ^ k ≤ 2 * N →
  ∃ td m,
    pad_node_data fl b t = Ok (td, m) ∧
    shape td = [B; N + pad_count b k N; D] ∧
    shape m = [B; N + pad_count b k N; 1] ∧
    N + pad_count b k N = ceil_div N (b ^ k) * b ^ k ∧
    pad_count b k N ≤ N ∧
    ∀ i j d, i < B → d < D →
      (j < N →
         (∃ x, get3 t i j d = Some x ∧ get3 td i j d = Some x) ∧
         get3 m i j 0 = Some 1%Q) ∧
      (N ≤ j < N + pad_count b k N →
         j - N < pad_count b k N ∧
         (∃ x, get3 t i (j - N) d = Some x ∧
               get3 td i j d = Some (x + eps)%Q ∧
               ((x + eps == 0)%Q ↔ (x == - eps)%Q)) ∧
         get3 m i j 0 = Some 0%Q).
Proof.
  intros Hsh Hwf HN Hb Hk Hfit.
  pose proof (pad_count_bound b k N Hb) as (_ & _ & Hpad).
  specialize (Hpad Hfit).
  assert (length (data t) = B * (N * D)) as Hlen.
  { unfold wf in Hwf. rewrite Hsh in Hwf. cbn in Hwf. lia. }
  eexists _, _. split; [by apply (pad_node_data_eq fl b k t B N D)|].
  split; [done|]. split; [done|]. split; [by apply pad_total|]. split; [done|].
  intros i j d Hi Hd.
  assert (∀ j', j' < N → is_Some (data t !! ((i * N + j') * D + d))) as Hsome.
  { intros j' Hj'. apply lookup_lt_is_Some. rewrite Hlen. by apply index3_bound. }
  unfold get3. cbn [shape data]. rewrite Hsh. split.
  - intros Hj. split.
    + destruct (Hsome j Hj) as [x Hx]. exists x. split; [done|].
      rewrite padded_lookup by (done || lia).
      destruct (decide (j < N)); [done|lia].
    + rewrite mask_lookup by (done || lia).
      destruct (decide (j < N)); [done|lia].
  - intros Hj. split; [lia|]. split.
    + destruct (Hsome (j - N) ltac:(lia)) as [x Hx]. exists x. split; [done|].
      split.
      * rewrite padded_lookup by (done || lia).
        destruct (decide (j < N)); [lia|]. by rewrite Hx.
      * split; intros H.
        -- rewrite <- (Qplus_0_r x), <- (Qplus_opp_r eps), Qplus_assoc, H.
           apply Qplus_0_l.
        -- rewrite H. rewrite Qplus_comm. apply Qplus_opp_r.
    + rewrite mask_lookup by (done || lia).
      destruct (decide (j < N)); [lia|done].
Qed.

Lemma pad_node_data_layout_witness :
  ∃ td m,
    pad_node_data sample_floor_log 2 items3 = Ok (td, m) ∧
    shape td = [1; 3 + pad_count 2 1 3; 1].
Proof.
  destruct (pad_node_data_layout sample_floor_log 2 1 items3 1 3 1 eq_refl eq_refl
              ltac:(lia) ltac:(lia) ltac:(vm_compute; reflexivity) ltac:(cbn; lia))
    as (td & m & Heq & Hsh & _).
  exists td, m. split; [exact Heq|exact Hsh].
Defined.

(** C7 as stated fails: a filler position can be zero.  With the items
    [-1e-5], 2, 3 and branch factor 2 the depth is 1, the padded length is
    4 and the fourth position is [-1e-5 + 1e-5]. *)
Lemma pad_filler_can_be_zero :
  ∃ td m x,
    pad_node_data sample_floor_log 2 items3 = Ok (td, m) ∧
    get3 td 0 3 0 = Some x ∧ (x == 0)%Q ∧ get3 m 0 3 0 = Some 0%Q.
Proof.
  eexists _, _, _. split; [vm_compute; reflexivity|].
  split; [vm_compute; reflexivity|]. split; [|vm_compute]; reflexivity.
Qed.

(** ** The loss tracker *)

Lemma Qnat_succ (n : nat) : (Qnat (n + 1) == Qnat n + 1)%Q.
Proof. unfold Qnat. rewrite Nat2Z.inj_add, inject_Z_plus. reflexivity. Qed.

Lemma Qnat_nonneg (n : nat) : (0 <= Qnat n)%Q.
Proof. unfold Qnat. change 0%Q with (inject_Z 0). rewrite <- Zle_Qle. lia. Qed.

Lemma init_mean_mlp_loss_lookup (i : nat) :
  i < 6 → init_mean_mlp_loss !! i = Some (0, 0%Q).
Proof.
  intros Hi.
  do 6 (destruct i as [|i]; [vm_compute; reflexivity|]). lia.
Qed.

(** One update keeps [mean * count = sum of the losses so far]. *)
Lemma running_mean_step (c : nat) (m l : Q) :
  ((m + (l - m) / Qnat (c + 1)) * Qnat (c + 1) == m * Qnat c + l)%Q.
Proof.
  rewrite Qnat_succ.
  pose proof (Qnat_nonneg c) as Hc.
  assert (~ (Qnat c + 1 == 0)%Q) as Hne.
  { intros H. rewrite <- H in Hc.
    apply (Qle_not_lt _ _ Hc). rewrite <- (Qplus_0_r (Qnat c)) at 1.
    apply Qplus_lt_r. reflexivity. }
  field. exact Hne.
Qed.

Lemma track_all_spec (i : nat) (ls : list Q) (st : gmap nat (nat * Q)) (c : nat) (m : Q) :
  st !! i = Some (c, m) →
  ∃ st' m',
    track_all i ls st = Ok st' ∧
    st' !! i = Some (c + length ls, m') ∧
    (m' * Qnat (c + length ls) == m * Qnat c + Qsum ls)%Q ∧
    ∀ j, j ≠ i → st' !! j = st !! j.
Proof.
  revert st c m. induction ls as [|l ls IH]; intros st c m Hst.
  - exists st, m. cbn. rewrite Nat.add_0_r. repeat split; try done.
    rewrite Qplus_0_r. reflexivity.
  - cbn [track_all]. unfold track_mlp_loss. rewrite Hst. cbn [mbind result_bind].
    edestruct (IH (<[i:=(c + 1, (m + (l - m) / inject_Z (Z.of_nat (c + 1)))%Q)]> st))
      as (st' & m' & Hrun & Hi & Hm & Hother).
    { apply lookup_insert_eq. }
    exists st', m'. split; [exact Hrun|]. split.
    { rewrite Hi. cbn [length]. do 2 f_equal. lia. }
    split.
    { cbn [length Qsum foldr]. fold (Qsum ls).
      replace (c + S (length ls)) with (c + 1 + length ls) by lia.
      rewrite Hm. fold (Qnat (c + 1)). rewrite running_mean_step. ring. }
    intros j Hj. rewrite Hother by done. by rewrite lookup_insert_ne.
Qed.

(** C8.  Starting from the initial table, after the losses [l_1 .. l_n] have
    been fed to a level [i] of the tracker (one of its six levels), the
    level holds the count [n] and a mean equal to [(1/n) * (l_1 + ... + l_n)]
    in exact arithmetic; the other levels are untouched. *)
Theorem track_mlp_loss_running_mean (i : nat) (ls : list Q) :
  i < 6 →
  ∃ st mean,
    track_all i ls init_mean_mlp_loss = Ok st ∧
    st !! i = Some (length ls, mean) ∧
    (mean == (1 / inject_Z (Z.of_nat (length ls))) * Qsum ls)%Q ∧
    ∀ j, j ≠ i → st !! j = init_mean_mlp_loss !! j.
Proof.
  intros Hi.
  destruct (track_all_spec i ls init_mean_mlp_loss 0 0%Q
              (init_mean_mlp_loss_lookup i Hi)) as (st & mean & Hrun & Hst & Hm & Hother).
  cbn [Nat.add] in Hst, Hm.
  destruct ls as [|l ls].
  - cbn in Hrun. injection Hrun as <-.
    rewrite init_mean_mlp_loss_lookup in Hst by done. injection Hst as <-.
    exists init_mean_mlp_loss, 0%Q. cbn.
    split; [done|]. split; [by apply init_mean_mlp_loss_lookup|]. split; [reflexivity|done].
  - exists st, mean. split; [exact Hrun|]. split; [exact Hst|]. split; [|exact Hother].
    fold (Qnat (length (l :: ls))) in *.
    assert (~ (Qnat (length (l :: ls)) == 0)%Q) as Hne.
    { cbn [length]. replace (S (length ls)) with (length ls + 1) by lia.
      rewrite Qnat_succ. pose proof (Qnat_nonneg (length ls)) as Hc.
      intros H. rewrite <- H in Hc. apply (Qle_not_lt _ _ Hc).
      rewrite <- (Qplus_0_r (Qnat (length ls))) at 1. apply Qplus_lt_r. reflexivity. }
    assert (Qsum (l :: ls) == mean * Qnat (length (l :: ls)))%Q as ->.
    { rewrite Hm. ring. }
    field. exact Hne.
Qed.

Lemma track_mlp_loss_running_mean_witness :
  ∃ st mean,
    track_all 2 [1; 2; 6]%Q init_mean_mlp_loss = Ok st ∧
    st !! 2 = Some (3, mean) ∧
    (mean == (1 / inject_Z (Z.of_nat 3)) * Qsum [1; 2; 6])%Q.
Proof.
  destruct (track_mlp_loss_running_mean 2 [1; 2; 6]%Q ltac:(lia))
    as (st & mean & Hrun & Hst & Hm & _).
  exists st, mean. split; [exact Hrun|]. split; [exact Hst|exact Hm].
Defined.

(** ** The bottom-up aggregator *)

Lemma numel_app (l1 l2 : list nat) : numel (l1 ++ l2) = numel l1 * numel l2.
Proof. unfold numel. induction l1 as [|x l1 IH]; cbn; [lia|]. rewrite IH. lia. Qed.

Lemma numel_replicate (b k : nat) : numel (replicate k b) = b ^ k.
Proof. unfold numel. induction k as [|k IH]; cbn; [done|]. by rewrite IH. Qed.

Lemma split_last2_app (lead : list nat) (n d : nat) :
  split_last2 (lead ++ [n; d]) = Some (lead, n, d).
Proof.
  unfold split_last2. rewrite reverse_app.
  change (reverse [n; d]) with [d; n]. cbn [app]. by rewrite reverse_involutive.
Qed.

Lemma reshape_ok (sh : list nat) (t : tensor) :
  numel sh = length (data t) → reshape sh t = Ok (mkTensor sh (data t)).
Proof. intros H. unfold reshape. by destruct (decide (numel sh = length (data t))). Qed.

Section AggregationProofs.

Variable aggregator : tensor → tensor → tensor.
Hypothesis Hagg : aggregator_ok aggregator.

Lemma parent_level_wf (lead : list nat) (n D : nat) (td tm : tensor) :
  length (data td) = numel lead * (n * D) →
  wf (parent_level aggregator lead n D td tm).1 ∧
  wf (parent_level aggregator lead n D td tm).2.
Proof.
  intros Hlen. unfold parent_level, wf. cbn [fst snd shape data]. split.
  - destruct (Hagg (mkTensor [numel lead; n; D] (data td))
                (mkTensor [numel lead; n; 1] (data tm)) (numel lead) n D eq_refl) as [Hs Hw].
    { unfold wf. cbn. lia. }
    unfold wf in Hw. rewrite Hw, Hs, numel_app. cbn. lia.
  - unfold any_children. rewrite length_fmap, length_chunks, numel_app. cbn. lia.
Qed.

(** One pass of the loop on a level of rank above two. *)
Lemma aggregation_loop_step (fuel D : nat) (lead : list nat) (n : nat)
    (td tm : tensor) (acc : list level) :
  lead ≠ [] →
  shape td = lead ++ [n; D] → shape tm = lead ++ [n; 1] → wf td → wf tm →
  aggregation_loop aggregator (S fuel) D td tm acc
  = aggregation_loop aggregator fuel D
      (parent_level aggregator lead n D td tm).1
      (parent_level aggregator lead n D td tm).2
      (acc ++ [parent_level aggregator lead n D td tm]).
Proof.
  intros Hlead Hsd Hsm Hwd Hwm.
  assert (length (data td) = numel lead * (n * D)) as Hld.
  { unfold wf in Hwd. rewrite Hwd, Hsd, numel_app. cbn. lia. }
  assert (length (data tm) = numel lead * n) as Hlm.
  { unfold wf in Hwm. rewrite Hwm, Hsm, numel_app. cbn. lia. }
  cbn [aggregation_loop].
  destruct (decide (length (shape td) ≤ 2)) as [Hle|_].
  { rewrite Hsd, length_app in Hle. destruct lead; [done|]. cbn in Hle. lia. }
  rewrite Hsd, Hsm, !split_last2_app.
  rewrite (reshape_ok [numel lead; n; D]) by (cbn; lia).
  rewrite (reshape_ok [numel lead; n; 1]) by (cbn; lia).
  cbn [mbind result_bind data].
  destruct (Hagg (mkTensor [numel lead; n; D] (data td))
              (mkTensor [numel lead; n; 1] (data tm)) (numel lead) n D eq_refl) as [Hs Hw].
  { unfold wf. cbn. lia. }
  unfold squeeze_m2. rewrite Hs.
  change [numel lead; 1; D] with ([numel lead] ++ [1; D]).
  rewrite split_last2_app.
  rewrite (reshape_ok (lead ++ [D])).
  2:{ cbn [data]. unfold wf in Hw. rewrite Hw, Hs, numel_app. cbn. lia. }
  rewrite (reshape_ok (lead ++ [1])).
  2:{ cbn [data]. unfold any_children.
      rewrite length_fmap, length_chunks, numel_app. cbn. lia. }
  cbn [mbind result_bind data]. reflexivity.
Qed.

(** On a level of rank two the loop is over. *)
Lemma aggregation_loop_done (fuel D : nat) (td tm : tensor) (acc : list level) :
  length (shape td) ≤ 2 → aggregation_loop aggregator fuel D td tm acc = Ok acc.
Proof.
  intros H. destruct fuel; cbn; by destruct (decide (length (shape td) ≤ 2)).
Qed.

End AggregationProofs.

Lemma any_children_lookup (n G q : nat) (m : list Q) :
  q < G → any_children n G m !! q = Some (any_float (take n (drop (q * n) m))).
Proof.
  intros Hq. unfold any_children. by rewrite list_lookup_fmap, chunks_lookup.
Qed.

Lemma any_float_real (l : list Q) (i : nat) (x : Q) :
  l !! i = Some x → nonzero x = true → any_float l = 1%Q.
Proof.
  intros Hl Hx. unfold any_float.
  assert (existsb nonzero l = true) as ->; [|done].
  apply existsb_exists. exists x. split; [|done].
  apply list_elem_of_In. by eapply list_elem_of_lookup_2.
Qed.


Section TreeProofs.

Variable aggregator : tensor → tensor → tensor.
Hypothesis Hagg : aggregator_ok aggregator.

(** The loop on a tree of [k] branching levels over leaf groups of [n]
    entries: it appends [k + 1] levels, each the parent of the one before. *)
Lemma aggregation_loop_tree (B b k : nat) :
  ∀ (fuel n D : nat) (td tm : tensor) (acc : list level),
  shape td = B :: replicate k b ++ [n; D] →
  shape tm = B :: replicate k b ++ [n; 1] →
  wf td → wf tm → k + 1 ≤ fuel →
  ∃ new,
    aggregation_loop aggregator fuel D td tm acc = Ok (acc ++ new) ∧
    length new = k + 1 ∧
    ∀ j, j ≤ k →
      ∃ c p, ((td, tm) :: new) !! j = Some c ∧ new !! j = Some p ∧
        shape p.1 = B :: replicate (k - j) b ++ [D] ∧
        shape p.2 = B :: replicate (k - j) b ++ [1] ∧
        wf p.1 ∧ wf p.2 ∧
        data p.2 = any_children (if j is 0 then n else b) (B * b ^ (k - j)) (data c.2).
Proof.
  induction k as [|k IH]; intros fuel n D td tm acc Hsd Hsm Hwd Hwm Hfuel.
  - destruct fuel as [|fuel]; [lia|].
    rewrite (aggregation_loop_step aggregator Hagg fuel D [B] n) by done.
    rewrite aggregation_loop_done by (cbn; lia).
    destruct (parent_level_wf aggregator Hagg [B] n D td tm) as [Hw1 Hw2].
    { unfold wf in Hwd. rewrite Hwd, Hsd. cbn. lia. }
    eexists [_]. split; [done|]. split; [done|].
    intros j Hj. assert (j = 0) as -> by lia.
    eexists _, _. split; [done|]. split; [done|].
    split; [done|]. split; [done|]. split; [done|]. split; [done|].
    cbn. reflexivity.
  - destruct fuel as [|fuel]; [lia|].
    set (lead := B :: replicate (S k) b).
    assert (lead ++ [D] = B :: replicate k b ++ [b; D]) as HeqD.
    { unfold lead. rewrite replicate_S_end. cbn. by rewrite <- app_assoc. }
    assert (lead ++ [1] = B :: replicate k b ++ [b; 1]) as Heq1.
    { unfold lead. rewrite replicate_S_end. cbn. by rewrite <- app_assoc. }
    rewrite (aggregation_loop_step aggregator Hagg fuel D lead n) by done.
    destruct (parent_level_wf aggregator Hagg lead n D td tm) as [Hw1 Hw2].
    { unfold wf in Hwd. rewrite Hwd, Hsd.
      change (B :: replicate (S k) b ++ [n; D]) with (lead ++ [n; D]).
      rewrite numel_app. cbn. lia. }
    set (par := parent_level aggregator lead n D td tm) in *.
    destruct (IH fuel b D par.1 par.2 (acc ++ [par])) as (new & Hrun & Hlen & Hlev);
      [exact HeqD|exact Heq1|done|done|lia|].
    exists (par :: new). split.
    { rewrite Hrun. by rewrite <- app_assoc. }
    split; [cbn; lia|].
    intros j Hj. destruct j as [|j].
    + exists (td, tm), par. split; [done|]. split; [done|].
      rewrite Nat.sub_0_r.
      split; [done|]. split; [done|]. split; [done|]. split; [done|].
      cbn [snd par parent_level data]. f_equal.
      unfold lead. change (B :: replicate (S k) b) with ([B] ++ replicate (S k) b).
      rewrite numel_app, numel_replicate. cbn. lia.
    + destruct (Hlev j ltac:(lia)) as (c & p & Hc & Hp & Hs1 & Hs2 & Hwp1 & Hwp2 & Hdata).
      exists c, p. split.
      { cbn [lookup list_lookup]. destruct par. exact Hc. }
      split; [exact Hp|].
      replace (S k - S j) with (k - j) by lia.
      split; [done|]. split; [done|]. split; [done|]. split; [done|].
      rewrite Hdata. by destruct j.
Qed.

End TreeProofs.

Lemma zero_aggregator_ok : aggregator_ok zero_aggregator.
Proof.
  intros x m G n D Hsh _. unfold zero_aggregator, wf. rewrite Hsh. cbn.
  split; [done|]. rewrite length_replicate. lia.
Qed.

Lemma padded_data_length (t : tensor) (B N D pad : nat) :
  length (data t) = B * (N * D) → pad ≤ N →
  length (concat (padded_row pad D <$> chunks (N * D) B (data t))) = B * ((N + pad) * D).
Proof.
  intros Hlen Hpad.
  rewrite (length_concat_uniform ((N + pad) * D)).
  - by rewrite length_fmap, length_chunks.
  - apply Forall_fmap. eapply Forall_impl.
    + apply (chunks_Forall_length (N * D) B). lia.
    + intros row Hrow. cbn. by apply length_padded_row.
Qed.

Lemma mask_data_length (B N pad : nat) :
  length (concat (replicate B (mask_row N pad))) = B * (N + pad).
Proof.
  rewrite (length_concat_uniform (N + pad))
    by apply Forall_replicate_eq, length_mask_row.
  by rewrite length_replicate.
Qed.

Lemma numel_tree_shape (B b k P D : nat) :
  numel (B :: replicate k b ++ [P; D]) = B * (P * b ^ k * D).
Proof.
  change (B :: replicate k b ++ [P; D]) with ([B] ++ replicate k b ++ [P; D]).
  rewrite !numel_app, numel_replicate. cbn. lia.
Qed.


Section GeneratorProofs.

Variable aggregator : tensor → tensor → tensor.
Hypothesis Hagg : aggregator_ok aggregator.
Variable fl : nat → nat → Z.

(** The table the tree generator builds for the depth [k] the code
    derives, before it is reversed: the padded leaves, then one level per
    pass. *)
Lemma tree_generator_spec (b k : nat) (t : tensor) (B N D : nat) :
  shape t = [B; N; D] → wf t → 2 ≤ b →
  branch_depth fl b N = Z.of_nat k → pad_count b k N ≤ N →
  let P := ceil_div N (b ^ k) in
  ∃ leaf new,
    tree_generator aggregator fl b t = Ok (reverse (leaf :: new)) ∧
    shape leaf.1 = B :: replicate k b ++ [P; D] ∧
    shape leaf.2 = B :: replicate k b ++ [P; 1] ∧
    data leaf.1 = concat (padded_row (pad_count b k N) D <$> chunks (N * D) B (data t)) ∧
    data leaf.2 = concat (replicate B (mask_row N (pad_count b k N))) ∧
    length new = k + 1 ∧
    ∀ j, j ≤ k →
      ∃ c p, (leaf :: new) !! j = Some c ∧ new !! j = Some p ∧
        shape p.1 = B :: replicate (k - j) b ++ [D] ∧
        shape p.2 = B :: replicate (k - j) b ++ [1] ∧
        wf p.1 ∧ wf p.2 ∧
        data p.2 = any_children (if j is 0 then P else b) (B * b ^ (k - j)) (data c.2).
Proof.
  intros Hsh Hwf Hb Hk Hpad P.
  pose proof (pad_total b k N Hb) as Htot. fold P in Htot.
  assert (length (data t) = B * (N * D)) as Hlen.
  { unfold wf in Hwf. rewrite Hsh in Hwf. cbn in Hwf. lia. }
  unfold tree_generator. rewrite Hsh, Hk.
  rewrite leaf_group_size_ok by done. cbn [mbind result_bind].
  rewrite (pad_node_data_eq fl b k t B N D) by done. cbn [mbind result_bind].
  rewrite Nat2Z.id. fold P.
  change ([B] ++ replicate k b ++ [P; D]) with (B :: replicate k b ++ [P; D]).
  change ([B] ++ replicate k b ++ [P; 1]) with (B :: replicate k b ++ [P; 1]).
  rewrite (reshape_ok (B :: replicate k b ++ [P; D])).
  2:{ cbn [data]. rewrite numel_tree_shape, padded_data_length by (done || lia).
      rewrite Htot. done. }
  cbn [mbind result_bind data].
  rewrite (reshape_ok (B :: replicate k b ++ [P; 1])).
  2:{ cbn [data]. rewrite numel_tree_shape, mask_data_length. rewrite Htot. lia. }
  cbn [mbind result_bind data].
  set (td := mkTensor (B :: replicate k b ++ [P; D]) _).
  set (tm := mkTensor (B :: replicate k b ++ [P; 1]) _).
  unfold bottom_up_aggregation.
  assert (last (shape td) = Some D) as ->.
  { cbn [td shape].
    replace (B :: replicate k b ++ [P; D]) with ((B :: replicate k b ++ [P]) ++ [D]).
    - apply last_snoc.
    - cbn. by rewrite <- app_assoc. }
  destruct (aggregation_loop_tree aggregator Hagg B b k (length (shape td)) P D td tm [(td, tm)])
    as (new & Hrun & Hlenn & Hlev); [done|done| | |..].
  { unfold wf. cbn [td shape data]. rewrite numel_tree_shape, padded_data_length by (done || lia).
    by rewrite Htot. }
  { unfold wf. cbn [tm shape data]. rewrite numel_tree_shape, mask_data_length.
    rewrite Htot. lia. }
  { cbn [td shape length]. rewrite length_app, length_replicate. cbn. lia. }
  rewrite Hrun. cbn [mbind result_bind].
  exists (td, tm), new. repeat (split; [done|]). exact Hlev.
Qed.

(** A tree is only built with a depth that is not negative and with no
    more fillers than items. *)
Lemma tree_generator_inv (b : nat) (t : tensor) (B N D : nat) (table : list level) :
  shape t = [B; N; D] → 2 ≤ b →
  tree_generator aggregator fl b t = Ok table →
  ∃ k, branch_depth fl b N = Z.of_nat k ∧ pad_count b k N ≤ N.
Proof.
  intros Hsh Hb Hrun.
  destruct (Z.lt_ge_cases (branch_depth fl b N) 0) as [Hneg|Hpos].
  - destruct (leaf_group_size_neg b _ N Hneg) as [e He].
    unfold tree_generator in Hrun. rewrite Hsh in Hrun. cbn zeta in Hrun.
    rewrite He in Hrun. discriminate.
  - destruct (Z_of_nat_complete _ Hpos) as [k Hk].
    exists k. split; [exact Hk|].
    destruct (decide (pad_count b k N ≤ N)) as [|Hgt]; [done|].
    unfold tree_generator in Hrun. rewrite Hsh, Hk in Hrun.
    rewrite leaf_group_size_ok in Hrun by done. cbn [mbind result_bind] in Hrun.
    rewrite (pad_node_data_overflow fl b k t B N D) in Hrun by (done || lia).
    discriminate.
Qed.

End GeneratorProofs.

Section TableProofs.

Variable aggregator : tensor → tensor → tensor.
Hypothesis Hagg : aggregator_ok aggregator.
Variable fl : nat → nat → Z.

(** The stored table, root first, for the depth [k] the code derives. *)
Lemma tree_table_spec (b k : nat) (t : tensor) (B N D : nat) :
  shape t = [B; N; D] → wf t → 2 ≤ b →
  branch_depth fl b N = Z.of_nat k → pad_count b k N ≤ N →
  let P := ceil_div N (b ^ k) in
  ∃ table,
    tree_generator aggregator fl b t = Ok table ∧
    length table = k + 2 ∧
    (∀ d, d ≤ k →
      ∃ p c, table !! d = Some p ∧ table !! S d = Some c ∧
        shape p.1 = B :: replicate d b ++ [D] ∧
        shape p.2 = B :: replicate d b ++ [1] ∧
        wf p.1 ∧ wf p.2 ∧
        data p.2 = any_children (if decide (d = k) then P else b) (B * b ^ d) (data c.2)) ∧
    (∃ leaf, table !! (k + 1) = Some leaf ∧
        shape leaf.1 = B :: replicate k b ++ [P; D] ∧
        shape leaf.2 = B :: replicate k b ++ [P; 1] ∧
        data leaf.1 = concat (padded_row (pad_count b k N) D <$> chunks (N * D) B (data t)) ∧
        data leaf.2 = concat (replicate B (mask_row N (pad_count b k N)))).
Proof.
  intros Hsh Hwf Hb Hk Hpad P.
  destruct (tree_generator_spec aggregator Hagg fl b k t B N D Hsh Hwf Hb Hk Hpad)
    as (leaf & new & Hrun & Hs1 & Hs2 & Hd1 & Hd2 & Hlen & Hlev).
  fold P in Hs1, Hs2, Hlen, Hlev.
  exists (reverse (leaf :: new)). split; [exact Hrun|].
  assert (length (leaf :: new) = k + 2) as Hlen' by (cbn; lia).
  split; [by rewrite length_reverse|]. split.
  - intros d Hd.
    destruct (Hlev (k - d) ltac:(lia)) as (c & p & Hc & Hp & Hsp1 & Hsp2 & Hw1 & Hw2 & Hdata).
    replace (k - (k - d)) with d in * by lia.
    exists p, c. split.
    { rewrite reverse_lookup by lia. rewrite Hlen'.
      replace (k + 2 - S d) with (S (k - d)) by lia. exact Hp. }
    split.
    { rewrite reverse_lookup by lia. rewrite Hlen'.
      replace (k + 2 - S (S d)) with (k - d) by lia. exact Hc. }
    repeat (split; [done|]). rewrite Hdata.
    destruct (decide (d = k)) as [->|Hne].
    + by rewrite Nat.sub_diag.
    + destruct (k - d) eqn:E; [lia|done].
  - exists leaf. split; [|done].
    rewrite reverse_lookup by lia. rewrite Hlen'.
    by replace (k + 2 - S (k + 1)) with 0 by lia.
Qed.


End TableProofs.

(** ** The stored tree level table *)

(** C4 as stated fails: for five items and branch factor 2 the depth is
    [k = floor(log_2 4) = 2] and the table has four pairs, not
    [k + 1 = 3]. *)
Lemma table_of_five_items_has_four_levels :
  ∃ table,
    tree_generator zero_aggregator sample_floor_log 2 items5 = Ok table ∧
    branch_depth sample_floor_log 2 5 = 2%Z ∧ floor_log 2 (5 - 1) = 2 ∧
    length table = 4 ∧ length table ≠ 2 + 1.
Proof.
  eexists. split; [vm_compute; reflexivity|]. split; [reflexivity|].
  split; [reflexivity|]. split; [reflexivity|]. cbn. lia.
Qed.

(** C4, as the code has it.  Let [k] be the depth the code derives for
    [N >= 2] items and branch factor [b >= 2], the floored float32 quotient
    of the logarithms of [N - 1] and [b], with [b^k <= 2 * N], and
    [P = ceil(N / b^k)].  After data setup on items [B, N, D] the stored
    table holds [k + 2] pairs: index [d <= k] holds the [b^d] nodes of depth
    [d] per batch element, from the root at index 0 to the leaf-group level
    at index [k], and index [k + 1] holds the padded items in their
    [P]-item groups.  Where the quotient is floored without rounding error,
    [k] is [floor(log_b (N - 1))]. *)
Theorem setup_data_table_levels (aggregator : tensor → tensor → tensor)
    (fl : nat → nat → Z) (self : TreeMemory) (t : tensor) (B N D k : nat) :
  aggregator_ok aggregator →
  shape t = [B; N; D] → wf t → 2 ≤ N → 2 ≤ branch_factor self →
  branch_depth fl (branch_factor self) N = Z.of_nat k →
  branch_factor self ^ k ≤ 2 * N →
  let b := branch_factor self in
  let P := ceil_div N (b ^ k) in
  ∃ self',
    setup_data aggregator fl self t = Ok self' ∧
    length (train_tree_data self') = k + 2 ∧
    (∀ d, d ≤ k →
       ∃ p, train_tree_data self' !! d = Some p ∧
            shape p.1 = B :: replicate d b ++ [D] ∧
            shape p.2 = B :: replicate d b ++ [1]) ∧
    (∃ root, train_tree_data self' !! 0 = Some root ∧
             shape root.1 = [B; D] ∧ shape root.2 = [B; 1]) ∧
    (∃ leaf, train_tree_data self' !! (k + 1) = Some leaf ∧
             shape leaf.1 = B :: replicate k b ++ [P; D] ∧
             shape leaf.2 = B :: replicate k b ++ [P; 1] ∧
             pad_node_data fl b t = Ok (mkTensor [B; P * b ^ k; D] (data leaf.1),
                                        mkTensor [B; P * b ^ k; 1] (data leaf.2))) ∧
    (fl b (N - 1) = Z.of_nat (floor_log b (N - 1)) → k = floor_log b (N - 1)).
Proof.
  intros Hagg Hsh Hwf HN Hb Hk Hfit b P.
  pose proof (pad_count_bound b k N Hb) as (_ & _ & Hpad). specialize (Hpad Hfit).
  destruct (tree_table_spec aggregator Hagg fl b k t B N D Hsh Hwf Hb Hk Hpad)
    as (table & Hrun & Hlen & Hlev & (leaf & Hleaf & Hs1 & Hs2 & Hd1 & Hd2)).
  fold P in Hlen, Hlev, Hleaf, Hs1, Hs2.
  unfold setup_data. fold b. rewrite Hrun. cbn [mbind result_bind].
  eexists. split; [reflexivity|]. cbn [train_tree_data].
  split; [exact Hlen|]. split.
  { intros d Hd. destruct (Hlev d Hd) as (p & c & Hp & _ & Hp1 & Hp2 & _).
    exists p. by repeat split. }
  split.
  { destruct (Hlev 0 ltac:(lia)) as (p & c & Hp & _ & Hp1 & Hp2 & _).
    exists p. by repeat split. }
  split.
  { exists leaf. split; [exact Hleaf|]. split; [exact Hs1|]. split; [exact Hs2|].
    rewrite (pad_node_data_eq fl b k t B N D) by done.
    rewrite Hd1, Hd2. pose proof (pad_total b k N Hb) as Htot. fold P in Htot.
    by rewrite Htot. }
  intros Hexact. fold b in Hk. rewrite branch_depth_items in Hk by done. lia.
Qed.

Lemma setup_data_table_levels_witness :
  ∃ self',
    setup_data zero_aggregator sample_floor_log (fresh_memory false) items5 = Ok self' ∧
    length (train_tree_data self') = 2 + 2.
Proof.
  destruct (setup_data_table_levels zero_aggregator sample_floor_log (fresh_memory false)
              items5 1 5 1 2 zero_aggregator_ok eq_refl eq_refl ltac:(lia) ltac:(cbn; lia)
              ltac:(vm_compute; reflexivity) ltac:(cbn; lia))
    as (self' & Hrun & Hlen & _).
  exists self'. split; [exact Hrun|exact Hlen].
Defined.



(** C9 as stated fails: with one item and branch factor 2 the depth that
    is derived is not 0 and data setup raises. *)
Lemma setup_data_single_item_raises :
  branch_depth sample_floor_log 2 1 ≠ 0%Z ∧
  setup_data zero_aggregator sample_floor_log (fresh_memory false) items1
  = Err ZeroDivisionError.
Proof. split; [discriminate|reflexivity]. Qed.

(** C9, as the code has it.  For one item ([N = 1]) and a branch factor of
    at least 2 the depth computation takes the logarithm of 0 and yields
    the least 32-bit integer; sizing the leaf groups then divides by zero,
    so the padder, the tree generator and data setup raise, and no tree is
    built. *)
Theorem setup_data_single_item (aggregator : tensor → tensor → tensor)
    (fl : nat → nat → Z) (self : TreeMemory) (t : tensor) (B D : nat) :
  shape t = [B; 1; D] → 2 ≤ branch_factor self →
  branch_depth fl (branch_factor self) 1 = INT_MIN ∧
  leaf_group_size (branch_factor self) INT_MIN 1 = Err ZeroDivisionError ∧
  pad_node_data fl (branch_factor self) t = Err ZeroDivisionError ∧
  tree_generator aggregator fl (branch_factor self) t = Err ZeroDivisionError ∧
  setup_data aggregator fl self t = Err ZeroDivisionError.
Proof.
  intros Hsh Hb.
  assert (leaf_group_size (branch_factor self) INT_MIN 1 = Err ZeroDivisionError) as Herr.
  { unfold leaf_group_size. cbn.
    destruct (branch_factor self) as [|[|b]]; [lia|lia|done]. }
  split; [done|]. split; [exact Herr|].
  unfold setup_data, tree_generator, pad_node_data. rewrite Hsh.
  change (branch_depth fl (branch_factor self) 1) with INT_MIN.
  rewrite Herr. done.
Qed.

Lemma setup_data_single_item_witness :
  setup_data zero_aggregator sample_floor_log (fresh_memory true) items1
  = Err ZeroDivisionError.
Proof.
  apply (setup_data_single_item zero_aggregator sample_floor_log (fresh_memory true)
           items1 2 1 eq_refl).
  cbn. lia.
Defined.

(** ** Top-down retrieval *)

Lemma Qle_bool_refl (x : Q) : Qle_bool x x = true.
Proof. apply Qle_bool_iff, Qle_refl. Qed.

Lemma argmax_pair (x : Q) : argmax [x; x] = 0.
Proof. cbn. by rewrite Qle_bool_refl. Qed.

Lemma use_mlps_eq (fresh : nat → nat → Q) (self : TreeMemory) (i : nat) (q layer : t3) :
  use_mlps fresh self i q layer
  = (dec ← mlp_decision self i q layer; Ok (fresh_linear fresh i (dim1 q) dec)).
Proof.
  unfold use_mlps, mlp_decision. destruct (mlps self !! i) as [W|]; [|done].
  destruct (linear64 W layer) as [p|e]; [|done]. cbn [mbind result_bind].
  by destruct (einsum_bnd_bmd p q).
Qed.

Lemma linear64_ones (W : list (list Q)) (B D : nat) (p : t3) :
  linear64 W (ones3 B 2 D) = Ok p →
  p = replicate B (replicate 2 (dot (replicate D 1%Q) <$> W)).
Proof.
  unfold linear64. destruct (last_dim_ok (Nat.eqb 64) (ones3 B 2 D)); [|done].
  intros [= <-]. unfold ones3. by rewrite !fmap_replicate.
Qed.

Lemma zip_with_replicate_pairs (y : list Q) (B : nat) (q : t3) :
  Forall (fun rows => ∃ h : list Q, rows = [h; h])
    (zip_with (fun pb qb : list (list Q) => (fun pn => dot pn <$> qb) <$> pb)
       (replicate B (replicate 2 y)) q).
Proof.
  revert q. induction B as [|B IH]; intros q; cbn; [constructor|].
  destruct q as [|qb q]; constructor; [|apply IH].
  by eexists.
Qed.

(** Both children of a level are the same placeholder, so they get the
    same decision row. *)
Lemma mlp_decision_ones (self : TreeMemory) (i : nat) (q : t3) (B D : nat) (dec : t3) :
  mlp_decision self i q (ones3 B 2 D) = Ok dec →
  Forall (fun rows => ∃ h : list Q, rows = [h; h]) dec.
Proof.
  unfold mlp_decision. destruct (mlps self !! i) as [W|]; [|done].
  destruct (linear64 W (ones3 B 2 D)) as [p|e] eqn:Hp; [|done].
  apply linear64_ones in Hp as ->. cbn [mbind result_bind].
  unfold einsum_bnd_bmd. destruct (_ && _); [|done].
  intros [= <-]. apply zip_with_replicate_pairs.
Qed.

(** Equal scores: the arg-max is the first child, whatever the new layer. *)
Lemma selection_of_pairs (fresh : nat → nat → Q) (i M : nat) (dec : t3) :
  Forall (fun rows => ∃ h : list Q, rows = [h; h]) dec →
  argmax <$> concat (fresh_linear fresh i M dec) = (fun _ => 0) <$> dec.
Proof.
  induction 1 as [|rows dec [h ->] _ IH]; [done|].
  unfold fresh_linear, rearrange_b1 in *. cbn.
  rewrite Qle_bool_refl. f_equal. exact IH.
Qed.

Section InferenceProofs.

Variables query_model_info query_model_info' : t3 → t3 → t3 → t3 → result (t3 * t3 * t3).
Variables qlog qlog' : Q → Q.
Variables rand_unit rand_unit' : nat → nat → nat → Q.
Variables sample sample' : nat → nat → list Q → nat.
Variables fresh fresh' : nat → nat → Q.

(** At inference a level's selection does not depend on the random source
  nor on the attention block. *)
Lemma descend_level_inference (self : TreeMemory) (B D i : nat) (q mask : t3) (s : descent) :
training self = false →
descend_level query_model_info qlog rand_unit sample fresh self B i q (ones3 B 2 D) mask s
= descend_level query_model_info' qlog' rand_unit' sample' fresh' self B i q
    (ones3 B 2 D) mask s.
Proof.
intros Htr. unfold descend_level. rewrite Htr, !use_mlps_eq.
destruct (mlp_decision self i q (ones3 B 2 D)) as [dec|e] eqn:Hdec; [|done].
cbn [mbind result_bind].
pose proof (mlp_decision_ones self i q B D dec Hdec) as Hpairs.
by rewrite !selection_of_pairs.
Qed.

Lemma descend_inference (self : TreeMemory) (B D len : nat) (q : t3) (todo : list level) :
training self = false →
∀ i s,
  descend query_model_info qlog rand_unit sample fresh self B D len q todo i s
  = descend query_model_info' qlog' rand_unit' sample' fresh' self B D len q todo i s.
Proof.
intros Htr. induction todo as [|[e m] todo IH]; intros i s; cbn [descend]; [done|].
destruct (i =? len - 1); [done|].
rewrite (descend_level_inference self B D i q (ones3 B 2 1) s Htr).
destruct (descend_level _ _ _ _ _ _ _ _ _ _ _ _) as [s'|err]; [|done].
cbn [mbind result_bind]. apply IH.
Qed.

Lemma tree_descent_inference (self : TreeMemory) (q : t3) :
training self = false →
tree_descent query_model_info qlog rand_unit sample fresh self q
= tree_descent query_model_info' qlog' rand_unit' sample' fresh' self q.
Proof.
intros Htr. unfold tree_descent.
destruct (train_tree_data self) as [|[root rm] filtered]; [done|].
destruct (last (shape root)); [|done]. by apply descend_inference.
Qed.

End InferenceProofs.

Section DescentProofs.

Variable query_model_info : t3 → t3 → t3 → t3 → result (t3 * t3 * t3).
Variable qlog : Q → Q.
Variable rand_unit : nat → nat → nat → Q.
Variable sample : nat → nat → list Q → nat.
Variable fresh : nat → nat → Q.

Abbreviation descend_level' := (descend_level query_model_info qlog rand_unit sample fresh).
Abbreviation descend' := (descend query_model_info qlog rand_unit sample fresh).


Lemma gather64_ones (B D : nat) (sel : list nat) (e : t3) :
gather64 (ones3 B 2 D) sel = Ok e → all_ones e ∧ length e = length sel.
Proof.
unfold gather64. destruct (length sel <=? length (ones3 B 2 D)) eqn:Hlen; [|done].
destruct (_ && _); [|done]. cbn [andb]. intros [= <-].
apply Nat.leb_le in Hlen. unfold ones3 in *. rewrite length_replicate in Hlen.
clear -Hlen. revert sel Hlen. induction B as [|B IH]; intros sel Hlen.
- destruct sel; [|cbn in Hlen; lia]. split; [constructor|done].
- destruct sel as [|idx sel]; [split; [constructor|done]|].
  cbn in Hlen. destruct (IH sel ltac:(lia)) as [Hones Hl].
  change (replicate (S B) (replicate 2 (replicate D 1%Q)))
    with (replicate 2 (replicate D 1%Q) :: replicate B (replicate 2 (replicate D 1%Q))).
  cbn [zip_with length]. split; [|by rewrite Hl].
  constructor; [|exact Hones].
  constructor; [|constructor].
  apply Forall_take.
  destruct idx as [|[|idx]]; cbn; try constructor; by apply Forall_replicate_eq.
Qed.



End DescentProofs.







(** C3.  At inference, for a fixed instance (stored table and layers) and a
    fixed query, the top-down retriever gives the same selections and the
    same outcome whatever the random source draws: the two placeholder
    children get equal scores and the arg-max picks the first. *)
Theorem inference_is_deterministic
    (query_model_info : t3 → t3 → t3 → t3 → result (t3 * t3 * t3))
    (query_model : t3 → t3 → t3 → t3 → result t3) (query_ff : t3 → result t3)
    (qlog : Q → Q)
    (rand_unit rand_unit' : nat → nat → nat → Q)
    (sample sample' : nat → nat → list Q → nat)
    (fresh fresh' : nat → nat → Q)
    (self : TreeMemory) (query_data : t3) :
  training self = false →
  tree_descent query_model_info qlog rand_unit sample fresh self query_data
  = tree_descent query_model_info qlog rand_unit' sample' fresh' self query_data ∧
  tree_retrieval query_model_info query_model qlog rand_unit sample fresh self query_data
  = tree_retrieval query_model_info query_model qlog rand_unit' sample' fresh' self query_data ∧
  retrieve query_model_info query_model query_ff qlog rand_unit sample fresh self query_data
  = retrieve query_model_info query_model query_ff qlog rand_unit' sample' fresh' self query_data.
Proof.
  intros Htr.
  pose proof (tree_descent_inference query_model_info query_model_info qlog qlog
                rand_unit rand_unit' sample sample' fresh fresh' self query_data Htr) as Hd.
  assert (tree_retrieval query_model_info query_model qlog rand_unit sample fresh self query_data
          = tree_retrieval query_model_info query_model qlog rand_unit' sample' fresh' self
              query_data) as Hr.
  { unfold tree_retrieval. by rewrite Hd. }
  split; [exact Hd|]. split; [exact Hr|].
  unfold retrieve. by rewrite Hr.
Qed.

Lemma inference_is_deterministic_witness :
  tree_descent sample_query_model_info sample_log sample_rand_unit sample_choice
    sample_fresh (sample_memory false) sample_query
  = tree_descent sample_query_model_info sample_log sample_rand_unit sample_choice
      sample_fresh' (sample_memory false) sample_query.
Proof.
  apply (inference_is_deterministic sample_query_model_info sample_query_model
           sample_query_ff sample_log sample_rand_unit sample_rand_unit
           sample_choice sample_choice sample_fresh sample_fresh'
           (sample_memory false) sample_query).
  reflexivity.
Defined.

(** C10.  [tree_retrieval] and [retrieve] never return: in either mode and
    for every query their outcome is an exception, and whenever the loop,
    the two concatenations and the last cross-attention go through, that
    exception is the [SystemExit] of [quit()]. *)
Theorem retrieve_never_returns
    (query_model_info : t3 → t3 → t3 → t3 → result (t3 * t3 * t3))
    (query_model : t3 → t3 → t3 → t3 → result t3) (query_ff : t3 → result t3)
    (qlog : Q → Q) (rand_unit : nat → nat → nat → Q)
    (sample : nat → nat → list Q → nat) (fresh : nat → nat → Q)
    (self : TreeMemory) (query_data : t3) :
  (∃ e, tree_retrieval query_model_info query_model qlog rand_unit sample fresh self query_data
        = Err e) ∧
  (∃ e, retrieve query_model_info query_model query_ff qlog rand_unit sample fresh self
          query_data = Err e) ∧
  (∀ s emb masks pred_emb,
     tree_descent query_model_info qlog rand_unit sample fresh self query_data = Ok s →
     cat1 (selected_data_embeddings s) = Ok emb →
     cat1 (selected_data_masks s) = Ok masks →
     query_model query_data emb emb (rearrange_b1 masks) = Ok pred_emb →
     tree_retrieval query_model_info query_model qlog rand_unit sample fresh self query_data
     = Err SystemExit ∧
     retrieve query_model_info query_model query_ff qlog rand_unit sample fresh self query_data
     = Err SystemExit).
Proof.
  assert (∃ e, tree_retrieval query_model_info query_model qlog rand_unit sample fresh self
                 query_data = Err e) as Hex.
  { unfold tree_retrieval.
    destruct (tree_descent _ _ _ _ _ _ _) as [s|e]; [|by eexists].
    cbn [mbind result_bind].
    destruct (cat1 (selected_data_embeddings s)) as [emb|e]; [|by eexists].
    cbn [mbind result_bind].
    destruct (cat1 (selected_data_masks s)) as [masks|e]; [|by eexists].
    cbn [mbind result_bind].
    destruct (query_model _ _ _ _) as [pred|e]; [|by eexists].
    by eexists. }
  split; [exact Hex|]. split.
  - destruct Hex as [e He]. exists e. unfold retrieve. by rewrite He.
  - intros s emb masks pred Hs Hemb Hmasks Hpred.
    assert (tree_retrieval query_model_info query_model qlog rand_unit sample fresh self
              query_data = Err SystemExit) as Hexit.
    { unfold tree_retrieval. rewrite Hs. cbn [mbind result_bind].
      rewrite Hemb. cbn [mbind result_bind]. rewrite Hmasks. cbn [mbind result_bind].
      rewrite Hpred. reflexivity. }
    split; [exact Hexit|]. unfold retrieve. by rewrite Hexit.
Qed.

Lemma retrieve_never_returns_witness :
  retrieve sample_query_model_info sample_query_model sample_query_ff sample_log
    sample_rand_unit sample_choice sample_fresh (sample_memory false) sample_query
  = Err SystemExit.
Proof.
  destruct (retrieve_never_returns sample_query_model_info sample_query_model
              sample_query_ff sample_log sample_rand_unit sample_choice sample_fresh
              (sample_memory false) sample_query) as (_ & _ & H).
  eapply H; vm_compute; reflexivity.
Defined.

(** C2 on a sample: on a tree of five items and one query of dimension 64,
    [retrieve] ends in [SystemExit] while training and at inference; it
    returns neither the five values nor the embedding. *)
Lemma retrieve_exits_in_both_modes :
  retrieve sample_query_model_info sample_query_model sample_query_ff sample_log
    sample_rand_unit sample_choice sample_fresh (sample_memory true) sample_query
  = Err SystemExit ∧
  retrieve sample_query_model_info sample_query_model sample_query_ff sample_log
    sample_rand_unit sample_choice sample_fresh (sample_memory false) sample_query
  = Err SystemExit.
Proof. split; vm_compute; reflexivity. Qed.

(** * Further properties *)

(** ** Tree shape *)

Lemma pow_lt_mono_exp (b k k' : nat) : 2 ≤ b → k < k' → b ^ S k ≤ b ^ k'.
Proof. intros Hb Hk. apply Nat.pow_le_mono_r; lia. Qed.

(** The depth is the only exponent that brackets [n]. *)
Lemma floor_log_unique (b n k : nat) :
  2 ≤ b → b ^ k ≤ n < b ^ S k → floor_log b n = k.
Proof.
  intros Hb [Hlo Hhi].
  assert (1 ≤ n) as Hn by (pose proof (pow_pos b k ltac:(lia)); lia).
  destruct (floor_log_spec b n Hb Hn) as [Hlo' Hhi'].
  destruct (Nat.lt_trichotomy (floor_log b n) k) as [Hlt|[Heq|Hgt]]; [|done|].
  - pose proof (pow_lt_mono_exp b _ _ Hb Hlt). lia.
  - pose proof (pow_lt_mono_exp b _ _ Hb Hgt). lia.
Qed.

(** X1.  Let [k] be the depth the code derives for [N >= 2] items and
    branch factor [b >= 2], with [b^k <= 2 * N], and [P = ceil(N / b^k)].
    The leaf groups are sized without error; the padder returns
    [P * b^k = N + pad] positions, with fewer fillers than [b^k] and no more
    than items, and a mask whose rows sum to [N].  Where [k] is the exact
    [floor(log_b (N - 1))], the leaf groups hold between 2 and [b] items. *)
Theorem leaf_group_bounds (fl : nat → nat → Z) (b k : nat) (t : tensor) (B N D : nat) :
  shape t = [B; N; D] → wf t → 2 ≤ b → 2 ≤ N →
  branch_depth fl b N = Z.of_nat k → b ^ k ≤ 2 * N →
  ∃ P,
    leaf_group_size b (branch_depth fl b N) N = Ok P ∧
    1 ≤ P ∧
    N + pad_count b k N = P * b ^ k ∧
    pad_count b k N < b ^ k ∧
    pad_count b k N ≤ N ∧
    (∃ td m,
       pad_node_data fl b t = Ok (td, m) ∧
       shape td = [B; P * b ^ k; D] ∧ wf td ∧
       shape m = [B; P * b ^ k; 1] ∧ wf m ∧
       ∀ i, i < B →
         (Qsum (take (P * b ^ k) (drop (i * (P * b ^ k)) (data m)))
          == inject_Z (Z.of_nat N))%Q) ∧
    (b ^ k ≤ N - 1 < b ^ S k →
       k = floor_log b (N - 1) ∧ 2 ≤ P ≤ b ∧ pad_count b k N < N).
Proof.
  intros Hsh Hwf Hb HN Hk Hfit. exists (ceil_div N (b ^ k)).
  rewrite Hk. split; [by apply leaf_group_size_ok|].
  pose proof (pow_pos b k ltac:(lia)) as Hpow.
  pose proof (ceil_div_spec N (b ^ k) ltac:(lia)) as [HP1 HP2].
  pose proof (pad_total b k N Hb) as Htot.
  pose proof (pad_count_bound b k N Hb) as (_ & Hlt & Hpad). specialize (Hpad Hfit).
  pose proof (pad_node_data_spec fl b k t B N D Hsh Hwf Hb Hk Hpad) as Hspec.
  cbn zeta in Hspec.
  set (P := ceil_div N (b ^ k)) in *.
  split; [nia|]. split; [exact Htot|]. split; [exact Hlt|]. split; [exact Hpad|].
  split; [exact Hspec|].
  intros [Hlo Hhi]. split; [symmetry; by apply floor_log_unique|].
  rewrite Nat.pow_succ_r' in Hhi. set (d := b ^ k) in *.
  split; [|lia]. split; [nia|].
  assert (P * d < (b + 1) * d) as H by nia.
  apply Nat.mul_lt_mono_pos_r in H; lia.
Qed.

Lemma leaf_group_bounds_witness :
  ∃ P, leaf_group_size 3 (branch_depth sample_floor_log 3 4) 4 = Ok P ∧ 2 ≤ P ≤ 3.
Proof.
  destruct (leaf_group_bounds sample_floor_log 3 1 (mkTensor [1; 4; 1] [1; 2; 3; 4]%Q) 1 4 1
              eq_refl eq_refl ltac:(lia) ltac:(lia) ltac:(vm_compute; reflexivity)
              ltac:(cbn; lia))
    as (P & HP & _ & _ & _ & _ & _ & Hexact).
  exists P. split; [exact HP|]. apply Hexact. cbn. lia.
Defined.

Lemma pad_count_power (b k m : nat) : 2 ≤ b → k ≤ m → pad_count b k (b ^ m) = 0.
Proof.
  intros Hb Hm.
  pose proof (pow_pos b k ltac:(lia)) as Hpow.
  replace m with ((m - k) + k) by lia. rewrite Nat.pow_add_r.
  unfold pad_count.
  pose proof (ceil_div_spec (b ^ (m - k) * b ^ k) (b ^ k) ltac:(lia)) as [H1 H2].
  set (P := ceil_div (b ^ (m - k) * b ^ k) (b ^ k)) in *.
  set (q := b ^ (m - k)) in *. set (d := b ^ k) in *.
  assert (P * d < (q + 1) * d) as H by lia.
  apply Nat.mul_lt_mono_pos_r in H; [|lia]. nia.
Qed.

(** X2.  When the number of items is a power [b^m], [m >= 1], of the
    branch factor, nothing is padded: the padder returns its input and a
    mask of ones.  This holds for every depth [k <= m] the code may derive;
    the floored float32 quotient for [b^m - 1] is [m - 1] or [m]. *)
Theorem pad_node_data_power (fl : nat → nat → Z) (b m k : nat) (t : tensor) (B D : nat) :
  2 ≤ b → 1 ≤ m → shape t = [B; b ^ m; D] → wf t →
  branch_depth fl b (b ^ m) = Z.of_nat k → k ≤ m →
  pad_node_data fl b t
  = Ok (t, mkTensor [B; b ^ m; 1] (concat (replicate B (replicate (b ^ m) 1%Q)))).
Proof.
  intros Hb Hm Hsh Hwf Hk Hkm.
  rewrite (pad_node_data_eq fl b k t B (b ^ m) D) by (done || rewrite pad_count_power; lia).
  rewrite pad_count_power by done. rewrite Nat.add_0_r.
  unfold mask_row. cbn [replicate]. rewrite app_nil_r.
  do 2 f_equal. destruct t as [sh dt]. cbn in *. subst sh. f_equal.
  assert ((padded_row 0 D <$> chunks (b ^ m * D) B dt) = chunks (b ^ m * D) B dt) as ->.
  { rewrite <- (list_fmap_id (chunks _ _ _)) at 2. apply list_fmap_ext.
    intros i row _. unfold padded_row. cbn. by rewrite app_nil_r. }
  apply concat_chunks. unfold wf in Hwf. cbn in Hwf. lia.
Qed.

Lemma pad_node_data_power_witness :
  pad_node_data sample_floor_log 2 (mkTensor [1; 4; 1] [1; 2; 3; 4]%Q)
  = Ok (mkTensor [1; 4; 1] [1; 2; 3; 4]%Q,
        mkTensor [1; 2 ^ 2; 1] (concat (replicate 1 (replicate (2 ^ 2) 1%Q)))).
Proof.
  apply (pad_node_data_power sample_floor_log 2 2 1 (mkTensor [1; 4; 1] [1; 2; 3; 4]%Q) 1 1);
    [lia|lia|reflexivity|reflexivity|vm_compute; reflexivity|lia].
Defined.

(** ** Masks of the stored tree *)

Lemma any_float_zeros (l : list Q) : Forall (fun x => x = 0%Q) l → any_float l = 0%Q.
Proof.
  intros H. unfold any_float.
  assert (existsb nonzero l = false) as ->; [|done].
  induction H as [|x l -> _ IH]; [done|]. cbn. exact IH.
Qed.

(** The OR over the [n] children of node [g], each spanning [s] positions. *)
Lemma any_float_nodes (N s n g : nat) (l : list Q) :
  1 ≤ n → length l = n →
  (∀ r, r < n → l !! r = Some (node_mask N s (g * n + r))) →
  any_float l = node_mask N (s * n) g.
Proof.
  intros Hn Hlen Hl. unfold node_mask at 1.
  destruct (Nat.ltb_spec (g * (s * n)) N) as [Hlt|Hge].
  - apply (any_float_real l 0 1%Q); [|done].
    rewrite (Hl 0) by lia. unfold node_mask.
    destruct (Nat.ltb_spec ((g * n + 0) * s) N); [done|nia].
  - apply any_float_zeros. apply Forall_lookup. intros r x Hx.
    assert (r < n) as Hr by (rewrite <- Hlen; by eapply lookup_lt_Some).
    rewrite (Hl r Hr) in Hx. injection Hx as <-. unfold node_mask.
    destruct (Nat.ltb_spec ((g * n + r) * s) N); [nia|done].
Qed.

Lemma node_index_bound (B G i g : nat) : i < B → g < G → i * G + g < B * G.
Proof. intros. nia. Qed.

(** One level up: from the masks of the children to those of the parents. *)
Lemma any_children_nodes (B G N s n : nat) (m : list Q) :
  1 ≤ n → length m = B * (G * n) →
  (∀ i j, i < B → j < G * n → m !! (i * (G * n) + j) = Some (node_mask N s j)) →
  ∀ i g, i < B → g < G →
    any_children n (B * G) m !! (i * G + g) = Some (node_mask N (s * n) g).
Proof.
  intros Hn Hlen Hm i g Hi Hg.
  pose proof (node_index_bound B G i g Hi Hg) as Hq.
  rewrite any_children_lookup by done. f_equal.
  assert ((i * G + g) * n + n ≤ length m) as Hfit.
  { rewrite Hlen. assert (i * G + g + 1 ≤ B * G) as H by lia.
    apply (Nat.mul_le_mono_r _ _ n) in H. lia. }
  apply any_float_nodes; [done| |].
  - rewrite length_take, length_drop. lia.
  - intros r Hr. rewrite lookup_take_lt by done. rewrite lookup_drop.
    replace ((i * G + g) * n + r) with (i * (G * n) + (g * n + r)) by lia.
    apply Hm; [done|]. nia.
Qed.

Section MaskProofs.

Variable aggregator : tensor → tensor → tensor.
Hypothesis Hagg : aggregator_ok aggregator.
Variable fl : nat → nat → Z.

Lemma tree_table_masks (b k : nat) (t : tensor) (B N D : nat) (table : list level) :
  shape t = [B; N; D] → wf t → 2 ≤ b →
  branch_depth fl b N = Z.of_nat k → pad_count b k N ≤ N →
  tree_generator aggregator fl b t = Ok table →
  let P := ceil_div N (b ^ k) in
  ∀ j, j ≤ k →
    ∃ p, table !! (k - j) = Some p ∧
      ∀ i g, i < B → g < b ^ (k - j) →
        data p.2 !! (i * b ^ (k - j) + g) = Some (node_mask N (P * b ^ j) g).
Proof.
  intros Hsh Hwf Hb Hk Hpad Hrun P.
  pose proof (branch_depth_nonneg fl b N k Hk) as HN.
  destruct (tree_table_spec aggregator Hagg fl b k t B N D Hsh Hwf Hb Hk Hpad)
    as (table' & Hrun' & Hlen & Hlev & (leaf & Hleaf & _ & _ & _ & Hmask)).
  rewrite Hrun in Hrun'. injection Hrun' as <-.
  pose proof (pad_total b k N Hb) as Htot.
  fold P in Hlen, Hlev, Hleaf, Htot.
  pose proof (pow_pos b k ltac:(lia)) as Hpow.
  pose proof (ceil_div_spec N (b ^ k) ltac:(lia)) as HP. fold P in HP.
  assert (1 ≤ P) as HP1 by nia.
  induction j as [|j IH]; intros Hj.
  - rewrite Nat.sub_0_r.
    destruct (Hlev k ltac:(lia)) as (p & c & Hp & Hc & _ & _ & _ & _ & Hdata).
    exists p. split; [exact Hp|]. intros i g Hi Hg.
    rewrite Hdata. destruct (decide (k = k)); [|done].
    replace (S k) with (k + 1) in Hc by lia. rewrite Hleaf in Hc. injection Hc as <-.
    replace (P * b ^ 0) with (1 * P) by (cbn; lia).
    apply any_children_nodes; [done| | |done|done].
    + rewrite Hmask, mask_data_length. nia.
    + intros i' j' Hi' Hj'. rewrite Hmask.
      pose proof (mask_lookup B N (pad_count b k N) i' j' Hi' ltac:(nia)) as Hl.
      replace ((i' * (N + pad_count b k N) + j') * 1 + 0)
        with (i' * (b ^ k * P) + j') in Hl by nia.
      rewrite Hl. f_equal. unfold node_mask. rewrite Nat.mul_1_r.
      destruct (decide (j' < N)); destruct (Nat.ltb_spec j' N); done || lia.
  - destruct (IH ltac:(lia)) as (c & Hc & Hcm).
    destruct (Hlev (k - S j) ltac:(lia)) as (p & c' & Hp & Hc' & _ & _ & _ & _ & Hdata).
    replace (S (k - S j)) with (k - j) in Hc' by lia.
    rewrite Hc in Hc'. injection Hc' as <-.
    destruct (Hlev (k - j) ltac:(lia)) as (c2 & _ & Hc2 & _ & _ & Hs2 & _ & Hw2 & _).
    rewrite Hc in Hc2. injection Hc2 as <-.
    assert (b ^ (k - j) = b ^ (k - S j) * b) as Hpw.
    { replace (k - j) with (S (k - S j)) by lia. cbn. lia. }
    exists p. split; [exact Hp|]. intros i g Hi Hg.
    rewrite Hdata. destruct (decide (k - S j = k)); [lia|].
    replace (P * b ^ S j) with (P * b ^ j * b) by (cbn; lia).
    apply any_children_nodes; [lia| | |done|done].
    + unfold wf in Hw2. rewrite Hw2, Hs2.
      change (B :: replicate (k - j) b ++ [1]) with ([B] ++ replicate (k - j) b ++ [1]).
      rewrite !numel_app, numel_replicate. cbn. rewrite Hpw. lia.
    + intros i' j' Hi' Hj'. rewrite <- Hpw. apply Hcm; [done|]. by rewrite Hpw.
Qed.

End MaskProofs.

(** X3.  In a table the tree generator has built for [N >= 2] items, with
    the depth [k] the code derives and [P = ceil(N / b^k)], the mask of
    node [g] of a batch element at depth [d <= k] is 1 exactly when the
    first of the [P * b^(k-d)] item positions it spans holds a real item,
    that is when [g * P * b^(k-d) < N]; it is 0 otherwise. *)
Theorem tree_masks_mark_real_items (aggregator : tensor → tensor → tensor)
    (fl : nat → nat → Z) (b : nat) (t : tensor) (B N D : nat) (table : list level) :
  aggregator_ok aggregator →
  shape t = [B; N; D] → wf t → 2 ≤ N → 2 ≤ b →
  tree_generator aggregator fl b t = Ok table →
  let k := Z.to_nat (branch_depth fl b N) in
  let P := ceil_div N (b ^ k) in
  ∀ d, d ≤ k →
    ∃ p, table !! d = Some p ∧
      ∀ i g, i < B → g < b ^ d →
        data p.2 !! (i * b ^ d + g)
        = Some (if g * (P * b ^ (k - d)) <? N then 1%Q else 0%Q).
Proof.
  intros Hagg Hsh Hwf HN Hb Hrun k P d Hd.
  destruct (tree_generator_inv aggregator fl b t B N D table Hsh Hb Hrun)
    as (k' & Hk & Hpad).
  assert (k = k') as Hkk by (unfold k; rewrite Hk; apply Nat2Z.id).
  clearbody k. subst k'.
  destruct (tree_table_masks aggregator Hagg fl b k t B N D table Hsh Hwf Hb Hk Hpad Hrun
              (k - d)) as (p & Hp & Hm); [lia|].
  fold P in Hp, Hm. replace (k - (k - d)) with d in * by lia.
  exists p. split; [exact Hp|]. intros i g Hi Hg. by apply Hm.
Qed.

Lemma tree_masks_mark_real_items_witness :
  ∃ table p,
    tree_generator zero_aggregator sample_floor_log 2 items5 = Ok table ∧
    table !! 2 = Some p ∧
    data p.2 !! (0 * 2 ^ 2 + 3)
    = Some (if 3 * (ceil_div 5 (2 ^ 2) * 2 ^ (2 - 2)) <? 5 then 1%Q else 0%Q).
Proof.
  destruct (tree_generator zero_aggregator sample_floor_log 2 items5) as [table|e] eqn:Hrun;
    [|vm_compute in Hrun; discriminate].
  destruct (tree_masks_mark_real_items zero_aggregator sample_floor_log 2 items5 1 5 1 table
              zero_aggregator_ok eq_refl eq_refl ltac:(lia) ltac:(lia) Hrun 2
              ltac:(vm_compute; lia)) as (p & Hp & Hm).
  exists table, p. split; [reflexivity|]. split; [exact Hp|].
  apply Hm; [lia|vm_compute; lia].
Defined.

(** ** Termination of the aggregation loop *)

Lemma split_last2_Some (sh lead : list nat) (n d : nat) :
  split_last2 sh = Some (lead, n, d) → sh = lead ++ [n; d].
Proof.
  unfold split_last2. destruct (reverse sh) as [|d' [|n' l]] eqn:Hrev; try done.
  intros [= <- <- <-].
  rewrite <- (reverse_involutive sh), Hrev.
  rewrite !reverse_cons, <- app_assoc. done.
Qed.

Lemma reshape_shape (sh : list nat) (t t' : tensor) :
  reshape sh t = Ok t' → shape t' = sh ∧ data t' = data t.
Proof.
  unfold reshape. destruct (decide _); [|done]. by intros [= <-].
Qed.

Section LoopProofs.

Variable aggregator : tensor → tensor → tensor.

Lemma aggregation_loop_fuel (fuel D : nat) :
  ∀ td tm acc, length (shape td) ≤ fuel + 2 →
    out_of_fuel (aggregation_loop aggregator fuel D td tm acc) = false.
Proof.
  induction fuel as [|fuel IH]; intros td tm acc Hrank; cbn [aggregation_loop].
  - destruct (decide (length (shape td) ≤ 2)); [done|lia].
  - destruct (decide (length (shape td) ≤ 2)) as [Hle|Hgt]; [done|].
    destruct (split_last2 (shape td)) as [[[lead n] d]|] eqn:Hsd; [|done].
    destruct (split_last2 (shape tm)) as [[[mlead mn] md]|]; [|done].
    unfold reshape.
    do 4 (match goal with
          | |- context [decide ?P] => destruct (decide P) as [_|_]; [|done]
          end; cbn [mbind result_bind data]).
    apply IH. cbn [shape].
    apply split_last2_Some in Hsd. rewrite Hsd, !length_app in Hrank.
    rewrite length_app. cbn in *. lia.
Qed.

Lemma aggregation_loop_extends (fuel D : nat) :
  ∀ td tm acc table,
    aggregation_loop aggregator fuel D td tm acc = Ok table → ∃ new, table = acc ++ new.
Proof.
  induction fuel as [|fuel IH]; intros td tm acc table; cbn [aggregation_loop].
  - destruct (decide _); [|done]. intros [= <-]. exists []. by rewrite app_nil_r.
  - destruct (decide _) as [Hle|Hgt]. { intros [= <-]. exists []. by rewrite app_nil_r. }
    destruct (split_last2 (shape td)) as [[[lead n] d]|];
      destruct (split_last2 (shape tm)) as [[[mlead mn] md]|]; try done.
    destruct (reshape [numel lead; n; D] td) as [x|e]; [|done]. cbn [mbind result_bind].
    destruct (reshape [numel lead; n; 1] tm) as [y|e]; [|done]. cbn [mbind result_bind].
    destruct (reshape (lead ++ [d]) _) as [td'|e]; [|done]. cbn [mbind result_bind].
    destruct (reshape (mlead ++ [md]) _) as [tm'|e]; [|done]. cbn [mbind result_bind].
    intros Hrun. destruct (IH _ _ _ _ Hrun) as [new ->].
    exists ((td', tm') :: new). by rewrite <- app_assoc.
Qed.

End LoopProofs.

(** X4.  The loop of [bottom_up_aggregation] ends for every aggregator and
    every data and mask of one rank, since each pass takes one dimension
    off: the loop bound of the model is never reached.  When a table is
    stored, its last pair is the input pair itself, and a pair of rank one
    or two is stored alone. *)
Theorem bottom_up_aggregation_ends (aggregator : tensor → tensor → tensor)
    (td tm : tensor) :
  length (shape tm) = length (shape td) →
  out_of_fuel (bottom_up_aggregation aggregator td tm) = false ∧
  (∀ table, bottom_up_aggregation aggregator td tm = Ok table →
            last table = Some (td, tm)) ∧
  (1 ≤ length (shape td) ≤ 2 →
   bottom_up_aggregation aggregator td tm = Ok [(td, tm)]).
Proof.
  intros _. unfold bottom_up_aggregation. split; [|split].
  - destruct (last (shape td)) as [D|]; [|done].
    pose proof (aggregation_loop_fuel aggregator (length (shape td)) D td tm [(td, tm)]
                  ltac:(lia)) as H.
    destruct (aggregation_loop _ _ _ _ _ _) as [acc|e]; [done|by destruct e].
  - intros table. destruct (last (shape td)) as [D|]; [|done].
    destruct (aggregation_loop _ _ _ _ _ _) as [acc|e] eqn:Hrun; [|done].
    cbn [mbind result_bind]. intros [= <-].
    destruct (aggregation_loop_extends aggregator _ _ _ _ _ _ Hrun) as [new ->].
    by rewrite last_reverse.
  - intros [H1 H2]. destruct (last (shape td)) as [D|] eqn:Hlast.
    + by rewrite aggregation_loop_done.
    + apply last_None in Hlast. rewrite Hlast in H1. cbn in H1. lia.
Qed.

Lemma bottom_up_aggregation_ends_witness :
  bottom_up_aggregation zero_aggregator (mkTensor [2; 1] [3; 4]%Q) (mkTensor [2; 1] [1; 1]%Q)
  = Ok [(mkTensor [2; 1] [3; 4]%Q, mkTensor [2; 1] [1; 1]%Q)].
Proof.
  apply (bottom_up_aggregation_ends zero_aggregator (mkTensor [2; 1] [3; 4]%Q)
           (mkTensor [2; 1] [1; 1]%Q) eq_refl).
  cbn. lia.
Defined.

(** ** More on the loss tracker *)

Lemma init_mean_mlp_loss_lookup_None (i : nat) :
  6 ≤ i → init_mean_mlp_loss !! i = None.
Proof.
  intros Hi. unfold init_mean_mlp_loss. cbn [seq fmap list_fmap list_to_map foldr].
  cbn. rewrite !lookup_insert_ne by lia. apply lookup_empty.
Qed.

Lemma dom_init_mean_mlp_loss (i : nat) : i ∈ dom init_mean_mlp_loss ↔ i < 6.
Proof.
  rewrite elem_of_dom. split.
  - intros [x Hx]. destruct (decide (i < 6)); [done|].
    rewrite init_mean_mlp_loss_lookup_None in Hx by lia. done.
  - intros Hi. rewrite init_mean_mlp_loss_lookup by done. by eexists.
Qed.

(** X5.  The tracker has the six levels 0..5 and keeps them: on a table
    with these keys an update of a level below 6 succeeds, adds one to the
    level's count and leaves the keys as they are, and an update of any
    other level raises [KeyError]. *)
Theorem track_mlp_loss_levels (i : nat) (loss : Q) (st : gmap nat (nat * Q)) :
  dom st = dom init_mean_mlp_loss →
  (i < 6 →
     ∃ c m m',
       st !! i = Some (c, m) ∧
       track_mlp_loss i loss st = Ok (<[i := (c + 1, m')]> st) ∧
       dom (<[i := (c + 1, m')]> st) = dom init_mean_mlp_loss) ∧
  (6 ≤ i → track_mlp_loss i loss st = Err KeyError).
Proof.
  intros Hdom. split.
  - intros Hi.
    assert (i ∈ dom st) as Hin by (rewrite Hdom; by apply dom_init_mean_mlp_loss).
    apply elem_of_dom in Hin as [[c m] Hst].
    exists c, m. eexists. split; [exact Hst|].
    unfold track_mlp_loss. rewrite Hst. split; [reflexivity|].
    rewrite dom_insert_L, <- Hdom.
    apply subseteq_union_1_L, singleton_subseteq_l, elem_of_dom. by eexists.
  - intros Hi.
    assert (i ∉ dom st) as Hnin.
    { rewrite Hdom. intros H. apply dom_init_mean_mlp_loss in H. lia. }
    apply not_elem_of_dom in Hnin. unfold track_mlp_loss. by rewrite Hnin.
Qed.

Lemma track_mlp_loss_levels_witness :
  track_mlp_loss 6 1%Q init_mean_mlp_loss = Err KeyError.
Proof.
  apply (track_mlp_loss_levels 6 1%Q init_mean_mlp_loss eq_refl). lia.
Defined.

(** X6.  The table is never cleared between calls: a level that holds
    the count [c] and the mean [m] holds, after [n] more losses, the count
    [c + n] and the mean of all [c + n] losses, [(c * m + l_1 + ... + l_n) /
    (c + n)]; the other levels are untouched. *)
Theorem track_mlp_loss_accumulates (i : nat) (ls : list Q) (st : gmap nat (nat * Q))
    (c : nat) (m : Q) :
  st !! i = Some (c, m) →
  ∃ st' m',
    track_all i ls st = Ok st' ∧
    st' !! i = Some (c + length ls, m') ∧
    (m' * inject_Z (Z.of_nat (c + length ls))
     == m * inject_Z (Z.of_nat c) + Qsum ls)%Q ∧
    ∀ j, j ≠ i → st' !! j = st !! j.
Proof. intros Hst. by apply track_all_spec. Qed.

Lemma track_mlp_loss_accumulates_witness :
  ∃ st' m',
    track_all 1 [4; 6]%Q (<[1 := (2, 5%Q)]> init_mean_mlp_loss) = Ok st' ∧
    st' !! 1 = Some (2 + 2, m') ∧
    (m' * inject_Z (Z.of_nat (2 + 2)) == 5 * inject_Z (Z.of_nat 2) + Qsum [4; 6])%Q.
Proof.
  destruct (track_mlp_loss_accumulates 1 [4; 6]%Q (<[1 := (2, 5%Q)]> init_mean_mlp_loss)
              2 5%Q (lookup_insert_eq _ _ _)) as (st' & m' & Hrun & Hst & Hm & _).
  exists st', m'. split; [exact Hrun|]. split; [exact Hst|exact Hm].
Defined.

Lemma Qnat_ge_1 (c : nat) : (1 <= Qnat (c + 1))%Q.
Proof. rewrite Qnat_succ. pose proof (Qnat_nonneg c). lra. Qed.

(** The updated mean lies between the old mean and the loss. *)
Lemma running_mean_bounds (c : nat) (m loss : Q) :
  let m' := (m + (loss - m) / inject_Z (Z.of_nat (c + 1)))%Q in
  ((m <= loss → m <= m' ∧ m' <= loss) ∧
   (loss <= m → loss <= m' ∧ m' <= m) ∧
   (0 <= m → 0 <= loss → 0 <= m'))%Q.
Proof.
  intros m'. unfold m'. clear m'.
  fold (Qnat (c + 1)). pose proof (Qnat_ge_1 c) as Hq.
  set (q := Qnat (c + 1)) in *.
  assert (((loss - m) / q) * q == loss - m)%Q as Hd.
  { field. intros H. rewrite H in Hq. lra. }
  set (d := ((loss - m) / q)%Q) in *.
  assert ((m <= loss → 0 <= d ∧ d <= loss - m) ∧ (loss <= m → loss - m <= d ∧ d <= 0))%Q
    as [H1 H2].
  { split; intros Hle; split; nra. }
  split; [|split].
  - intros Hle. destruct (H1 Hle). lra.
  - intros Hle. destruct (H2 Hle). lra.
  - intros Hm Hl. destruct (Qlt_le_dec loss m) as [Hlt|Hge].
    + destruct (H2 ltac:(lra)). lra.
    + destruct (H1 Hge). lra.
Qed.

(** X7.  One update moves the mean towards the new loss and not past it:
    the new mean lies between the old mean and the loss.  So a mean that
    is not negative stays so under losses that are not negative. *)
Theorem track_mlp_loss_between (i : nat) (loss : Q) (st : gmap nat (nat * Q))
    (c : nat) (m : Q) :
  st !! i = Some (c, m) →
  ∃ st' m',
    track_mlp_loss i loss st = Ok st' ∧
    st' !! i = Some (c + 1, m') ∧
    ((m <= loss → m <= m' ∧ m' <= loss) ∧
     (loss <= m → loss <= m' ∧ m' <= m) ∧
     (0 <= m → 0 <= loss → 0 <= m'))%Q.
Proof.
  intros Hst. unfold track_mlp_loss. rewrite Hst.
  eexists _, _. split; [reflexivity|]. split; [apply lookup_insert_eq|].
  apply running_mean_bounds.
Qed.

Lemma track_mlp_loss_between_witness :
  ∃ st' m',
    track_mlp_loss 0 3%Q init_mean_mlp_loss = Ok st' ∧
    st' !! 0 = Some (0 + 1, m') ∧ (0 <= m' ∧ m' <= 3)%Q.
Proof.
  destruct (track_mlp_loss_between 0 3%Q init_mean_mlp_loss 0 0%Q eq_refl)
    as (st' & m' & Hrun & Hst & Hle & _).
  exists st', m'. split; [exact Hrun|]. split; [exact Hst|].
  apply Hle. discriminate.
Defined.

(** ** Retrieval without a tree, on deep trees and on other dimensions *)

(** X8.  On an instance without a stored tree, a new one or one that was
    reset, [tree_retrieval], [retrieve] and [tree_leaves_retrieval] raise
    [IndexError], before [quit()] is reached.  [reset] clears the tree and
    nothing else: the loss table, the layers and the flags stay. *)
Theorem retrieve_without_tree
    (query_model_info : t3 → t3 → t3 → t3 → result (t3 * t3 * t3))
    (query_model : t3 → t3 → t3 → t3 → result t3) (query_ff : t3 → result t3)
    (qlog : Q → Q) (rand_unit : nat → nat → nat → Q)
    (sample : nat → nat → list Q → nat) (fresh : nat → nat → Q)
    (self : TreeMemory) (query_data : t3) :
  (train_tree_data self = [] →
     tree_retrieval query_model_info query_model qlog rand_unit sample fresh self query_data
     = Err IndexError ∧
     retrieve query_model_info query_model query_ff qlog rand_unit sample fresh self query_data
     = Err IndexError ∧
     tree_leaves_retrieval query_model self query_data = Err IndexError) ∧
  train_tree_data (reset self) = [] ∧
  mean_mlp_loss (reset self) = mean_mlp_loss self ∧
  mlps (reset self) = mlps self ∧
  training (reset self) = training self ∧
  norm_first (reset self) = norm_first self ∧
  branch_factor (reset self) = branch_factor self.
Proof.
  split; [|done]. intros Hempty.
  unfold retrieve, tree_retrieval, tree_descent, tree_leaves_retrieval.
  by rewrite Hempty.
Qed.

Lemma retrieve_without_tree_witness :
  retrieve sample_query_model_info sample_query_model sample_query_ff sample_log
    sample_rand_unit sample_choice sample_fresh (reset (sample_memory true)) sample_query
  = Err IndexError.
Proof.
  destruct (retrieve_without_tree sample_query_model_info sample_query_model
              sample_query_ff sample_log sample_rand_unit sample_choice sample_fresh
              (reset (sample_memory true)) sample_query) as [H _].
  apply H. reflexivity.
Defined.

Section DepthProofs.

Variable query_model_info : t3 → t3 → t3 → t3 → result (t3 * t3 * t3).
Variable qlog : Q → Q.
Variable rand_unit : nat → nat → nat → Q.
Variable sample : nat → nat → list Q → nat.
Variable fresh : nat → nat → Q.

(** A level without a layer of its own cannot be passed. *)
Lemma descend_level_no_layer (self : TreeMemory) (B i : nat) (q layer mask : t3)
    (s : descent) :
  mlps self !! i = None →
  ∃ e, descend_level query_model_info qlog rand_unit sample fresh self B i q layer mask s
       = Err e.
Proof.
  intros Hnone. unfold descend_level, use_mlps. rewrite Hnone.
  destruct (training self); [|by eexists].
  destruct (query_model_info _ _ _ _) as [[[a b] w]|e]; by eexists.
Qed.

Lemma descend_too_deep (self : TreeMemory) (B D len : nat) (q : t3) (todo : list level) :
  length (mlps self) + 2 ≤ len →
  ∀ i s, i ≤ length (mlps self) → i + length todo = len →
    ∃ e, descend query_model_info qlog rand_unit sample fresh self B D len q todo i s
         = Err e.
Proof.
  intros Hlen. induction todo as [|[e m] todo IH]; intros i s Hi Hsum.
  - cbn in Hsum. lia.
  - cbn [descend]. cbn [length] in Hsum.
    assert ((i =? len - 1) = false) as -> by (apply Nat.eqb_neq; lia).
    destruct (decide (i = length (mlps self))) as [->|Hne].
    + destruct (descend_level_no_layer self B (length (mlps self)) q (ones3 B 2 D)
                  (ones3 B 2 1) s) as [err ->].
      { apply lookup_ge_None. lia. }
      by eexists.
    + destruct (descend_level _ _ _ _ _ _ _ _ _ _ _ _) as [s'|err]; [|by eexists].
      cbn [mbind result_bind]. apply IH; lia.
Qed.

Lemma forallb_replicate_false {A} (p : A → bool) (n : nat) (x : A) :
  p x = false → forallb p (replicate (S n) x) = false.
Proof. intros H. cbn. by rewrite H. Qed.

Lemma linear64_wrong_dim (W : list (list Q)) (B D : nat) :
  1 ≤ B → D ≠ 64 → linear64 W (ones3 B 2 D) = Err RuntimeError.
Proof.
  intros HB HD. unfold linear64.
  assert (last_dim_ok (Nat.eqb 64) (ones3 B 2 D) = false) as ->; [|done].
  destruct B as [|B]; [lia|]. unfold last_dim_ok, ones3.
  apply forallb_replicate_false. apply (forallb_replicate_false _ 1).
  rewrite length_replicate. apply Nat.eqb_neq. congruence.
Qed.

Lemma descend_level_wrong_dim (self : TreeMemory) (B D i : nat) (q mask : t3) (s : descent) :
  1 ≤ B → D ≠ 64 → is_Some (mlps self !! i) →
  (∃ e, descend_level query_model_info qlog rand_unit sample fresh self B i q
          (ones3 B 2 D) mask s = Err e) ∧
  (training self = false →
   descend_level query_model_info qlog rand_unit sample fresh self B i q
     (ones3 B 2 D) mask s = Err RuntimeError).
Proof.
  intros HB HD [W HW]. unfold descend_level, use_mlps. rewrite HW.
  rewrite linear64_wrong_dim by done. cbn [mbind result_bind].
  destruct (training self).
  - split; [|done]. destruct (query_model_info _ _ _ _) as [[[a b] w]|e]; by eexists.
  - split; [by eexists|done].
Qed.

End DepthProofs.

(** X9.  The descent has one layer per level it passes and there are six
    of them: on a stored table of three levels more than there are layers
    (nine levels, depth [k >= 7]) the descent raises in either mode, at the
    latest with [IndexError] at the first level without a layer, and so do
    [tree_retrieval] and [retrieve]. *)
Theorem tree_descent_too_deep
    (query_model_info : t3 → t3 → t3 → t3 → result (t3 * t3 * t3))
    (query_model : t3 → t3 → t3 → t3 → result t3) (query_ff : t3 → result t3)
    (qlog : Q → Q) (rand_unit : nat → nat → nat → Q)
    (sample : nat → nat → list Q → nat) (fresh : nat → nat → Q)
    (self : TreeMemory) (query_data : t3) :
  length (mlps self) + 3 ≤ length (train_tree_data self) →
  ∃ e,
    tree_descent query_model_info qlog rand_unit sample fresh self query_data = Err e ∧
    tree_retrieval query_model_info query_model qlog rand_unit sample fresh self query_data
    = Err e ∧
    retrieve query_model_info query_model query_ff qlog rand_unit sample fresh self query_data
    = Err e.
Proof.
  intros Hlen.
  assert (∃ e, tree_descent query_model_info qlog rand_unit sample fresh self query_data
               = Err e) as [e He].
  { unfold tree_descent.
    destruct (train_tree_data self) as [|[root rm] filtered]; [by eexists|].
    destruct (last (shape root)) as [D|]; [|by eexists].
    cbn [length] in Hlen. apply descend_too_deep; lia. }
  exists e. split; [exact He|].
  assert (tree_retrieval query_model_info query_model qlog rand_unit sample fresh self
            query_data = Err e) as Hr.
  { unfold tree_retrieval. by rewrite He. }
  split; [exact Hr|]. unfold retrieve. by rewrite Hr.
Qed.

Lemma tree_descent_too_deep_witness :
  ∃ e,
    tree_descent sample_query_model_info sample_log sample_rand_unit sample_choice
      sample_fresh
      (with_table (fresh_memory false) (replicate 9 (mkTensor [1; 64] [], mkTensor [1; 1] [])))
      sample_query = Err e.
Proof.
  destruct (tree_descent_too_deep sample_query_model_info sample_query_model
              sample_query_ff sample_log sample_rand_unit sample_choice sample_fresh
              (with_table (fresh_memory false)
                 (replicate 9 (mkTensor [1; 64] [], mkTensor [1; 1] [])))
              sample_query) as (e & He & _).
  { cbn. lia. }
  exists e. exact He.
Defined.

(** X10.  The layers and the gather are written for dimension 64: when the
    stored root has another last dimension, the batch of queries is not
    empty, there is a first layer and the table has at least three levels
    (so that a level is passed), the descent raises in either mode; at
    inference the error is the [RuntimeError] of the first layer. *)
Theorem tree_descent_other_dimension
    (query_model_info : t3 → t3 → t3 → t3 → result (t3 * t3 * t3))
    (query_model : t3 → t3 → t3 → t3 → result t3) (query_ff : t3 → result t3)
    (qlog : Q → Q) (rand_unit : nat → nat → nat → Q)
    (sample : nat → nat → list Q → nat) (fresh : nat → nat → Q)
    (self : TreeMemory) (query_data : t3) (D : nat) :
  root_dim (train_tree_data self) = Some D → D ≠ 64 →
  query_data ≠ [] → is_Some (mlps self !! 0) →
  3 ≤ length (train_tree_data self) →
  (∃ e, tree_descent query_model_info qlog rand_unit sample fresh self query_data = Err e) ∧
  (training self = false →
   tree_descent query_model_info qlog rand_unit sample fresh self query_data
   = Err RuntimeError ∧
   retrieve query_model_info query_model query_ff qlog rand_unit sample fresh self query_data
   = Err RuntimeError).
Proof.
  intros Hdim HD Hq HW Hlen. unfold retrieve, tree_retrieval, tree_descent.
  destruct (train_tree_data self) as [|[root rm] [|[e1 m1] [|lvl filtered]]];
    cbn [length] in Hlen; try lia.
  cbn in Hdim. rewrite Hdim.
  assert (1 ≤ length query_data) as HB by (destruct query_data; [done|cbn; lia]).
  cbn [descend length]. 
  assert ((0 =? S (S (length filtered)) - 1) = false) as -> by (apply Nat.eqb_neq; lia).
  destruct (descend_level_wrong_dim query_model_info qlog rand_unit sample fresh self
              (length query_data) D 0 query_data (ones3 (length query_data) 2 1)
              (mkDescent [] [] [] [] (mean_mlp_loss self)) HB HD HW) as [[e He] Hinf].
  split.
  - rewrite He. by eexists.
  - intros Htr. by rewrite (Hinf Htr).
Qed.

Lemma tree_descent_other_dimension_witness :
  tree_descent sample_query_model_info sample_log sample_rand_unit sample_choice
    sample_fresh
    (with_table (fresh_memory false) (replicate 3 (mkTensor [1; 8] [], mkTensor [1; 1] [])))
    [[replicate 8 1%Q]] = Err RuntimeError.
Proof.
  destruct (tree_descent_other_dimension sample_query_model_info sample_query_model
              sample_query_ff sample_log sample_rand_unit sample_choice sample_fresh
              (with_table (fresh_memory false)
                 (replicate 3 (mkTensor [1; 8] [], mkTensor [1; 1] [])))
              [[replicate 8 1%Q]] 8) as [_ H];
    [reflexivity|lia|discriminate|by eexists|cbn; lia|].
  apply H. reflexivity.
Defined.

(** ** What the descent selects *)

Lemma all_ones_binary (x : t3) : all_ones x → binary x.
Proof.
  unfold all_ones, binary. intros H.
  eapply Forall_impl; [exact H|]. intros rows Hrows.
  eapply Forall_impl; [exact Hrows|]. intros v Hv.
  eapply Forall_impl; [exact Hv|]. cbn. auto.
Qed.

Lemma all_ones_placeholder (B n D : nat) : all_ones (ones3 B n D).
Proof. unfold all_ones, ones3. by do 3 apply Forall_replicate_eq. Qed.

Lemma selection_mask_first {A} (l : list A) :
  all_ones (selection_mask ((fun _ => 0) <$> l)).
Proof.
  unfold all_ones, selection_mask. induction l as [|x l IH]; cbn; [constructor|].
  constructor; [|exact IH]. repeat constructor.
Qed.

Lemma selection_mask_binary (sel : list nat) :
  Forall (fun idx => idx < 2) sel → binary (selection_mask sel).
Proof.
  unfold binary, selection_mask. induction 1 as [|idx sel Hidx _ IH]; cbn; [constructor|].
  constructor; [|exact IH]. do 2 (constructor; [|constructor]).
  destruct idx as [|[|idx]]; [by right|by left|lia].
Qed.

(** The indices [torch.gather] accepts are those of the two children. *)
Lemma gather64_indices (B D : nat) (sel : list nat) (e : t3) :
  gather64 (ones3 B 2 D) sel = Ok e → Forall (fun idx => idx < 2) sel.
Proof.
  unfold gather64. destruct (length sel <=? length (ones3 B 2 D)) eqn:Hlen; [|done].
  cbn [andb]. destruct (last_dim_ok _ _); [|done]. cbn [andb].
  destruct (forallb _ _) eqn:Hall; [|done]. intros _.
  apply Nat.leb_le in Hlen. unfold ones3 in *. rewrite length_replicate in Hlen.
  revert sel Hlen Hall. induction B as [|B IH]; intros sel Hlen Hall.
  - destruct sel; [constructor|cbn in Hlen; lia].
  - destruct sel as [|idx sel]; [constructor|].
    change (replicate (S B) (replicate 2 (replicate D 1%Q)))
      with (replicate 2 (replicate D 1%Q) :: replicate B (replicate 2 (replicate D 1%Q)))
      in Hall.
    cbn [zip zip_with forallb] in Hall. apply andb_true_iff in Hall as [Hidx Hrest].
    constructor.
    + cbn in Hidx. apply Nat.leb_le in Hidx. lia.
    + apply IH; [cbn in Hlen; lia|exact Hrest].
Qed.

Section SelectionProofs.

Variable query_model_info : t3 → t3 → t3 → t3 → result (t3 * t3 * t3).
Variable qlog : Q → Q.
Variable rand_unit : nat → nat → nat → Q.
Variable sample : nat → nat → list Q → nat.
Variable fresh : nat → nat → Q.

Lemma descend_level_inference_ones (self : TreeMemory) (B D i : nat) (q : t3)
    (s s' : descent) :
  training self = false →
  descend_level query_model_info qlog rand_unit sample fresh self B i q
    (ones3 B 2 D) (ones3 B 2 1) s = Ok s' →
  ∃ e m,
    s' = mkDescent (selected_data_embeddings s ++ [e]) (selected_data_masks s ++ [m])
           (entropy_att_scores_list s) (log_branch_sel_prob_list s) (loss_table s) ∧
    all_ones e ∧ all_ones m.
Proof.
  intros Htr. unfold descend_level. rewrite Htr, use_mlps_eq.
  destruct (mlp_decision self i q (ones3 B 2 D)) as [dec|err] eqn:Hdec; [|done].
  cbn [mbind result_bind].
  rewrite (selection_of_pairs fresh i (dim1 q) dec (mlp_decision_ones self i q B D dec Hdec)).
  destruct (gather64 _ _) as [e|err] eqn:He; [|done]. cbn [mbind result_bind].
  intros [= <-]. eexists _, _. split; [reflexivity|]. split.
  - by apply gather64_ones in He as [? _].
  - apply selection_mask_first.
Qed.

Lemma descend_inference_ones (self : TreeMemory) (B D len : nat) (q : t3)
    (todo : list level) :
  training self = false →
  ∀ i s s',
    descend query_model_info qlog rand_unit sample fresh self B D len q todo i s = Ok s' →
    Forall all_ones (selected_data_embeddings s) →
    Forall all_ones (selected_data_masks s) →
    Forall all_ones (selected_data_embeddings s') ∧
    Forall all_ones (selected_data_masks s') ∧
    entropy_att_scores_list s' = entropy_att_scores_list s ∧
    log_branch_sel_prob_list s' = log_branch_sel_prob_list s ∧
    loss_table s' = loss_table s.
Proof.
  intros Htr. induction todo as [|[e m] todo IH]; intros i s s'; cbn [descend].
  - intros [= <-]. done.
  - destruct (i =? len - 1).
    + intros [= <-] He Hm. cbn.
      split; [apply Forall_app; split; [done|]; repeat constructor; apply all_ones_placeholder|].
      split; [apply Forall_app; split; [done|]; repeat constructor; apply all_ones_placeholder|].
      done.
    + destruct (descend_level _ _ _ _ _ _ _ _ _ _ _ _) as [s1|err] eqn:Hs1; [|done].
      cbn [mbind result_bind]. intros Hrun He Hm.
      destruct (descend_level_inference_ones self B D i q s s1 Htr Hs1)
        as (e1 & m1 & -> & He1 & Hm1).
      destruct (IH (S i) _ s' Hrun) as (H1 & H2 & H3 & H4 & H5); cbn.
      * apply Forall_app. split; [done|]. by repeat constructor.
      * apply Forall_app. split; [done|]. by repeat constructor.
      * done.
Qed.

Lemma descend_level_binary (self : TreeMemory) (B D i : nat) (q : t3) (s s' : descent) :
  descend_level query_model_info qlog rand_unit sample fresh self B i q
    (ones3 B 2 D) (ones3 B 2 1) s = Ok s' →
  ∃ m, selected_data_masks s' = selected_data_masks s ++ [m] ∧ binary m.
Proof.
  unfold descend_level. destruct (training self).
  - destruct (query_model_info _ _ _ _) as [[[a b] w]|err]; [|done].
    cbn [mbind result_bind].
    destruct (use_mlps _ _ _ _ _) as [dec|err]; [|done]. cbn [mbind result_bind].
    destruct (track_mlp_loss _ _ _) as [tbl|err]; [|done]. cbn [mbind result_bind].
    destruct (gather64 _ _) as [e|err] eqn:He; [|done]. cbn [mbind result_bind].
    intros [= <-]. eexists. cbn. split; [done|].
    apply selection_mask_binary. by eapply gather64_indices.
  - destruct (use_mlps _ _ _ _ _) as [dec|err]; [|done]. cbn [mbind result_bind].
    destruct (gather64 _ _) as [e|err] eqn:He; [|done]. cbn [mbind result_bind].
    intros [= <-]. eexists. cbn. split; [done|].
    apply selection_mask_binary. by eapply gather64_indices.
Qed.

Lemma descend_binary (self : TreeMemory) (B D len : nat) (q : t3) (todo : list level) :
  ∀ i s s',
    descend query_model_info qlog rand_unit sample fresh self B D len q todo i s = Ok s' →
    Forall binary (selected_data_masks s) →
    Forall binary (selected_data_masks s').
Proof.
  induction todo as [|[e m] todo IH]; intros i s s'; cbn [descend].
  - by intros [= <-].
  - destruct (i =? len - 1).
    + intros [= <-] Hm. cbn. apply Forall_app. split; [done|].
      repeat constructor. apply all_ones_binary, all_ones_placeholder.
    + destruct (descend_level _ _ _ _ _ _ _ _ _ _ _ _) as [s1|err] eqn:Hs1; [|done].
      cbn [mbind result_bind]. intros Hrun Hm.
      destruct (descend_level_binary self B D i q s s1 Hs1) as (m1 & Hm1 & Hbin).
      apply (IH (S i) s1 s' Hrun). rewrite Hm1. apply Forall_app. split; [done|].
      by repeat constructor.
Qed.

End SelectionProofs.

(** X11.  At inference a descent that goes through hands only ones to the
    last cross-attention: every selected embedding and every selection
    mask, the placeholder pair included, is all ones, whatever the stored
    tree and the queries hold.  It records no entropy and no
    log-probability and leaves the loss table as it was. *)
Theorem inference_descent_is_all_ones
    (query_model_info : t3 → t3 → t3 → t3 → result (t3 * t3 * t3))
    (qlog : Q → Q) (rand_unit : nat → nat → nat → Q)
    (sample : nat → nat → list Q → nat) (fresh : nat → nat → Q)
    (self : TreeMemory) (query_data : t3) (s : descent) :
  training self = false →
  tree_descent query_model_info qlog rand_unit sample fresh self query_data = Ok s →
  Forall all_ones (selected_data_embeddings s) ∧
  Forall all_ones (selected_data_masks s) ∧
  entropy_att_scores_list s = [] ∧
  log_branch_sel_prob_list s = [] ∧
  loss_table s = mean_mlp_loss self.
Proof.
  intros Htr. unfold tree_descent.
  destruct (train_tree_data self) as [|[root rm] filtered]; [done|].
  destruct (last (shape root)) as [D|]; [|done]. intros Hrun.
  by apply (descend_inference_ones query_model_info qlog rand_unit sample fresh self
              _ _ _ _ _ Htr _ _ _ Hrun).
Qed.

Lemma inference_descent_is_all_ones_witness :
  ∃ s,
    tree_descent sample_query_model_info sample_log sample_rand_unit sample_choice
      sample_fresh (sample_memory false) sample_query = Ok s ∧
    Forall all_ones (selected_data_masks s).
Proof.
  destruct (tree_descent sample_query_model_info sample_log sample_rand_unit sample_choice
              sample_fresh (sample_memory false) sample_query) as [s|e] eqn:Hrun;
    [|vm_compute in Hrun; discriminate].
  exists s. split; [reflexivity|].
  apply (inference_descent_is_all_ones sample_query_model_info sample_log sample_rand_unit
           sample_choice sample_fresh (sample_memory false) sample_query s eq_refl Hrun).
Defined.

(** X12.  In either mode the selection masks of a descent that goes
    through hold only 0 and 1: the mask of a level is one minus the index
    of the selected child, and the gather accepts the indices 0 and 1
    only. *)
Theorem selection_masks_are_binary
    (query_model_info : t3 → t3 → t3 → t3 → result (t3 * t3 * t3))
    (qlog : Q → Q) (rand_unit : nat → nat → nat → Q)
    (sample : nat → nat → list Q → nat) (fresh : nat → nat → Q)
    (self : TreeMemory) (query_data : t3) (s : descent) :
  tree_descent query_model_info qlog rand_unit sample fresh self query_data = Ok s →
  Forall binary (selected_data_masks s).
Proof.
  unfold tree_descent.
  destruct (train_tree_data self) as [|[root rm] filtered]; [done|].
  destruct (last (shape root)) as [D|]; [|done]. intros Hrun.
  by apply (descend_binary query_model_info qlog rand_unit sample fresh self
              _ _ _ _ _ _ _ _ Hrun).
Qed.

Lemma selection_masks_are_binary_witness :
  ∃ s,
    tree_descent sample_query_model_info sample_log sample_rand_unit sample_choice
      sample_fresh (sample_memory true) sample_query = Ok s ∧
    Forall binary (selected_data_masks s).
Proof.
  destruct (tree_descent sample_query_model_info sample_log sample_rand_unit sample_choice
              sample_fresh (sample_memory true) sample_query) as [s|e] eqn:Hrun;
    [|vm_compute in Hrun; discriminate].
  exists s. split; [reflexivity|].
  apply (selection_masks_are_binary sample_query_model_info sample_log sample_rand_unit
           sample_choice sample_fresh (sample_memory true) sample_query s Hrun).
Defined.

(** ** The tracker during a descent *)

Lemma Qsum_nonneg (l : list Q) : Forall (fun x => (0 <= x)%Q) l → (0 <= Qsum l)%Q.
Proof.
  induction 1 as [|x l Hx _ IH]; cbn; [apply Qle_refl|].
  fold (Qsum l). lra.
Qed.

Lemma Qsquare_nonneg (z : Q) : (0 <= z * z)%Q.
Proof.
  destruct (Qlt_le_dec z 0) as [Hlt|Hge].
  - assert (z * z == (- z) * (- z))%Q as -> by ring.
    apply Qmult_le_0_compat; lra.
  - apply Qmult_le_0_compat; lra.
Qed.

Lemma squares_nonneg (l1 l2 : list Q) :
  Forall (fun x => (0 <= x)%Q) (zip_with (fun x y => (x - y) * (x - y))%Q l1 l2).
Proof.
  revert l2. induction l1 as [|x l1 IH]; intros l2; [constructor|].
  destruct l2 as [|y l2]; [constructor|]. cbn. constructor; [apply Qsquare_nonneg|apply IH].
Qed.

Lemma mse_loss_nonneg (a b : t3) : (0 <= mse_loss a b)%Q.
Proof.
  unfold mse_loss, Qdiv. apply Qmult_le_0_compat.
  - apply Qsum_nonneg, squares_nonneg.
  - apply Qinv_le_0_compat. change 0%Q with (inject_Z 0). rewrite <- Zle_Qle. lia.
Qed.

Section TrackerProofs.

Variable query_model_info : t3 → t3 → t3 → t3 → result (t3 * t3 * t3).
Variable qlog : Q → Q.
Variable rand_unit : nat → nat → nat → Q.
Variable sample : nat → nat → list Q → nat.
Variable fresh : nat → nat → Q.

(** While training, one pass updates the level's entry of the table once
    and records one entropy and one log-probability. *)
Lemma descend_level_training_step (self : TreeMemory) (B i : nat) (q layer mask : t3)
    (s s' : descent) :
  training self = true →
  descend_level query_model_info qlog rand_unit sample fresh self B i q layer mask s = Ok s' →
  ∃ c m m',
    loss_table s !! i = Some (c, m) ∧
    loss_table s' = <[i := (c + 1, m')]> (loss_table s) ∧
    ((0 <= m)%Q → (0 <= m')%Q) ∧
    length (entropy_att_scores_list s') = S (length (entropy_att_scores_list s)) ∧
    length (log_branch_sel_prob_list s') = S (length (log_branch_sel_prob_list s)).
Proof.
  intros Htr. unfold descend_level. rewrite Htr.
  destruct (query_model_info _ _ _ _) as [[[a b] w]|err]; [|done].
  cbn [mbind result_bind].
  destruct (use_mlps _ _ _ _ _) as [dec|err]; [|done]. cbn [mbind result_bind].
  unfold track_mlp_loss.
  destruct (loss_table s !! i) as [[c m]|] eqn:Hst; [|done]. cbn [mbind result_bind].
  destruct (gather64 _ _) as [e|err]; [|done]. cbn [mbind result_bind].
  intros [= <-]. exists c, m. eexists. split; [done|]. cbn.
  split; [reflexivity|]. split.
  - intros Hm. apply running_mean_bounds; [done|]. apply mse_loss_nonneg.
  - rewrite !length_app. cbn. lia.
Qed.

Lemma descend_level_inference_table (self : TreeMemory) (B i : nat) (q layer mask : t3)
    (s s' : descent) :
  training self = false →
  descend_level query_model_info qlog rand_unit sample fresh self B i q layer mask s = Ok s' →
  loss_table s' = loss_table s.
Proof.
  intros Htr. unfold descend_level. rewrite Htr.
  destruct (use_mlps _ _ _ _ _) as [dec|err]; [|done]. cbn [mbind result_bind].
  destruct (gather64 _ _) as [e|err]; [|done]. cbn [mbind result_bind].
  by intros [= <-].
Qed.

Lemma descend_training_updates (self : TreeMemory) (B D len : nat) (q : t3)
    (todo : list level) :
  training self = true →
  ∀ i s s',
    i + length todo = len →
    descend query_model_info qlog rand_unit sample fresh self B D len q todo i s = Ok s' →
    length (entropy_att_scores_list s')
    = length (entropy_att_scores_list s) + (length todo - 1) ∧
    length (log_branch_sel_prob_list s')
    = length (log_branch_sel_prob_list s) + (length todo - 1) ∧
    (∀ j, i ≤ j < i + (length todo - 1) →
       ∃ c m m', loss_table s !! j = Some (c, m) ∧ loss_table s' !! j = Some (c + 1, m')) ∧
    (∀ j, j < i ∨ i + (length todo - 1) ≤ j → loss_table s' !! j = loss_table s !! j).
Proof.
  intros Htr. induction todo as [|[e m] todo IH]; intros i s s' Hsum; cbn [descend].
  - intros [= <-]. cbn. repeat split; try lia; done.
  - cbn [length] in Hsum.
    destruct (Nat.eqb_spec i (len - 1)) as [Hlast|Hnot].
    + intros [= <-]. assert (length todo = 0) as Hl by lia.
      cbn [length]. rewrite Hl. cbn. repeat split; try lia; done.
    + destruct (descend_level _ _ _ _ _ _ _ _ _ _ _ _) as [s1|err] eqn:Hs1; [|done].
      cbn [mbind result_bind]. intros Hrun.
      destruct (descend_level_training_step self B i q _ _ s s1 Htr Hs1)
        as (c & mo & m' & Hold & Hnew & _ & Hent & Hlp).
      destruct (IH (S i) s1 s' ltac:(lia) Hrun) as (He & Hl & Hin & Hout).
      assert (1 ≤ length todo) as Hpos by lia.
      cbn [length]. split; [lia|]. split; [lia|]. split.
      * intros j Hj. destruct (decide (j = i)) as [->|Hne].
        -- exists c, mo, m'. split; [exact Hold|].
           rewrite Hout by lia. rewrite Hnew. apply lookup_insert_eq.
        -- destruct (Hin j ltac:(lia)) as (cj & mj & mj' & Hj1 & Hj2).
           exists cj, mj, mj'. split; [|exact Hj2].
           rewrite Hnew in Hj1. by rewrite lookup_insert_ne in Hj1.
      * intros j Hj. rewrite Hout by lia. rewrite Hnew.
        apply lookup_insert_ne. lia.
Qed.

Lemma descend_nonneg (self : TreeMemory) (B D len : nat) (q : t3) (todo : list level) :
  ∀ i s s',
    descend query_model_info qlog rand_unit sample fresh self B D len q todo i s = Ok s' →
    (∀ j c m, loss_table s !! j = Some (c, m) → (0 <= m)%Q) →
    ∀ j c m, loss_table s' !! j = Some (c, m) → (0 <= m)%Q.
Proof.
  induction todo as [|[e m] todo IH]; intros i s s'; cbn [descend].
  - by intros [= <-].
  - destruct (i =? len - 1); [by intros [= <-]|].
    destruct (descend_level _ _ _ _ _ _ _ _ _ _ _ _) as [s1|err] eqn:Hs1; [|done].
    cbn [mbind result_bind]. intros Hrun Hs. apply (IH (S i) s1 s' Hrun).
    destruct (training self) eqn:Htr.
    + destruct (descend_level_training_step self B i q _ _ s s1 Htr Hs1)
        as (c & mo & m' & Hold & Hnew & Hpos & _).
      intros j cj mj. rewrite Hnew. destruct (decide (j = i)) as [->|Hne].
      * rewrite lookup_insert_eq. intros [= <- <-]. apply Hpos. by eapply Hs.
      * rewrite lookup_insert_ne by done. apply Hs.
    + rewrite (descend_level_inference_table self B i q _ _ s s1 Htr Hs1). exact Hs.
Qed.

End TrackerProofs.

(** X13.  A training descent that goes through updates the tracker once for
    each level it passes, the levels [0 .. len - 2] of the [len] levels below
    the root: their counts go up by one, every other entry of the table
    stays, and one entropy term and one log-probability are recorded per
    level passed. *)
Theorem training_descent_updates
    (query_model_info : t3 → t3 → t3 → t3 → result (t3 * t3 * t3))
    (qlog : Q → Q) (rand_unit : nat → nat → nat → Q)
    (sample : nat → nat → list Q → nat) (fresh : nat → nat → Q)
    (self : TreeMemory) (query_data : t3) (root : level) (filtered : list level)
    (s : descent) :
  training self = true →
  train_tree_data self = root :: filtered →
  tree_descent query_model_info qlog rand_unit sample fresh self query_data = Ok s →
  length (entropy_att_scores_list s) = length filtered - 1 ∧
  length (log_branch_sel_prob_list s) = length filtered - 1 ∧
  (∀ j, j < length filtered - 1 →
     ∃ c m m', mean_mlp_loss self !! j = Some (c, m) ∧
               loss_table s !! j = Some (c + 1, m')) ∧
  (∀ j, length filtered - 1 ≤ j → loss_table s !! j = mean_mlp_loss self !! j).
Proof.
  intros Htr Htable. unfold tree_descent. rewrite Htable. destruct root as [r rm].
  destruct (last (shape r)) as [D|]; [|done]. intros Hrun.
  destruct (descend_training_updates query_model_info qlog rand_unit sample fresh self
              _ _ _ _ _ Htr 0 _ s eq_refl Hrun) as (He & Hl & Hin & Hout).
  cbn in He, Hl, Hin, Hout. split; [exact He|]. split; [exact Hl|]. split.
  - intros j Hj. apply Hin. lia.
  - intros j Hj. apply Hout. lia.
Qed.

Lemma training_descent_updates_witness :
  ∃ s c m m',
    tree_descent sample_query_model_info sample_log sample_rand_unit sample_choice
      sample_fresh (sample_memory true) sample_query = Ok s ∧
    length (log_branch_sel_prob_list s) = 2 ∧
    mean_mlp_loss (sample_memory true) !! 1 = Some (c, m) ∧
    loss_table s !! 1 = Some (c + 1, m').
Proof.
  destruct (tree_descent sample_query_model_info sample_log sample_rand_unit sample_choice
              sample_fresh (sample_memory true) sample_query) as [s|e] eqn:Hrun;
    [|vm_compute in Hrun; discriminate].
  edestruct (training_descent_updates sample_query_model_info sample_log sample_rand_unit
               sample_choice sample_fresh (sample_memory true) sample_query)
    as (_ & Hl & Hin & _); [reflexivity|vm_compute; reflexivity|exact Hrun|].
  destruct (Hin 1 ltac:(cbn; lia)) as (c & m & m' & H1 & H2).
  exists s, c, m, m'. split; [reflexivity|]. split; [exact Hl|]. split; [exact H1|exact H2].
Defined.

(** X14.  The tracked means never become negative: if no mean of the loss
    table is negative before a descent, none is after it, in either mode,
    the losses being mean squared errors. *)
Theorem tracked_means_stay_nonnegative
    (query_model_info : t3 → t3 → t3 → t3 → result (t3 * t3 * t3))
    (qlog : Q → Q) (rand_unit : nat → nat → nat → Q)
    (sample : nat → nat → list Q → nat) (fresh : nat → nat → Q)
    (self : TreeMemory) (query_data : t3) (s : descent) :
  (∀ j c m, mean_mlp_loss self !! j = Some (c, m) → (0 <= m)%Q) →
  tree_descent query_model_info qlog rand_unit sample fresh self query_data = Ok s →
  ∀ j c m, loss_table s !! j = Some (c, m) → (0 <= m)%Q.
Proof.
  intros Hpos. unfold tree_descent.
  destruct (train_tree_data self) as [|[root rm] filtered]; [done|].
  destruct (last (shape root)) as [D|]; [|done]. intros Hrun.
  by apply (descend_nonneg query_model_info qlog rand_unit sample fresh self
              _ _ _ _ _ _ _ _ Hrun).
Qed.

Lemma tracked_means_stay_nonnegative_witness :
  ∃ s,
    tree_descent sample_query_model_info sample_log sample_rand_unit sample_choice
      sample_fresh (sample_memory true) sample_query = Ok s ∧
    ∀ j c m, loss_table s !! j = Some (c, m) → (0 <= m)%Q.
Proof.
  destruct (tree_descent sample_query_model_info sample_log sample_rand_unit sample_choice
              sample_fresh (sample_memory true) sample_query) as [s|e] eqn:Hrun;
    [|vm_compute in Hrun; discriminate].
  exists s. split; [reflexivity|].
  apply (tracked_means_stay_nonnegative sample_query_model_info sample_log sample_rand_unit
           sample_choice sample_fresh (sample_memory true) sample_query s); [|exact Hrun].
  intros j c m Hj. change (mean_mlp_loss (sample_memory true)) with init_mean_mlp_loss in Hj.
  destruct (decide (j < 6)) as [Hlt|Hge].
  - rewrite init_mean_mlp_loss_lookup in Hj by done. injection Hj as <- <-. discriminate.
  - rewrite init_mean_mlp_loss_lookup_None in Hj by lia. discriminate.
Defined.

(** ** Leaf-level retrieval and the policy-gradient terms *)

Lemma last_tree_shape (B b k P D : nat) : last (B :: replicate k b ++ [P; D]) = Some D.
Proof.
  replace (B :: replicate k b ++ [P; D]) with ((B :: replicate k b ++ [P]) ++ [D]).
  - apply last_snoc.
  - cbn. by rewrite <- app_assoc.
Qed.

(** X15.  After data setup on [N >= 2] items, with the depth [k] the
    code derives and [pad = ceil(N / b^k) * b^k - N] fillers, the leaf-level
    retrieval attends, for every batch element, over all its [N + pad]
    padded items, the [N] items followed by the fillers, under the padder's
    own mask (1 for the items, 0 for the fillers), the same for each of the
    queries. *)
Theorem tree_leaves_retrieval_after_setup (aggregator : tensor → tensor → tensor)
    (fl : nat → nat → Z) (query_model : t3 → t3 → t3 → t3 → result t3)
    (self self' : TreeMemory) (t : tensor) (B N D : nat) (query_data : t3) :
  aggregator_ok aggregator →
  shape t = [B; N; D] → wf t → 2 ≤ N → 2 ≤ branch_factor self → 1 ≤ B → 1 ≤ D →
  setup_data aggregator fl self t = Ok self' →
  let k := Z.to_nat (branch_depth fl (branch_factor self) N) in
  let pad := pad_count (branch_factor self) k N in
  let keys :=
    (fun row => chunks D (N + pad) (padded_row pad D row)) <$> chunks (N * D) B (data t) in
  tree_leaves_retrieval query_model self' query_data
  = query_model query_data keys keys
      (replicate B (replicate (dim1 query_data) (mask_row N pad))).
Proof.
  intros Hagg Hsh Hwf HN Hb HB HD Hsetup k pad keys.
  unfold setup_data in Hsetup.
  destruct (tree_generator aggregator fl (branch_factor self) t) as [table|e] eqn:Hrun;
    [|discriminate].
  cbn [mbind result_bind] in Hsetup. injection Hsetup as <-.
  destruct (tree_generator_inv aggregator fl _ t B N D table Hsh Hb Hrun)
    as (k' & Hk & Hpad).
  assert (k = k') as Hkk by (unfold k; rewrite Hk; apply Nat2Z.id).
  clearbody k. subst k'. fold pad in Hpad.
  destruct (tree_table_spec aggregator Hagg fl (branch_factor self) k t B N D
              Hsh Hwf Hb Hk Hpad)
    as (table' & Hrun' & Hlen & _ & (leaf & Hleaf & Hs1 & _ & Hd1 & Hd2)).
  rewrite Hrun in Hrun'. injection Hrun' as <-.
  fold pad in Hd1, Hd2.
  assert (length (data t) = B * (N * D)) as Hlt.
  { unfold wf in Hwf. rewrite Hsh in Hwf. cbn in Hwf. lia. }
  unfold tree_leaves_retrieval. cbn [train_tree_data].
  rewrite last_lookup, Hlen.
  replace (pred (k + 2)) with (k + 1) by lia.
  rewrite Hleaf. destruct leaf as [ld lm]. cbn [fst snd] in *.
  rewrite Hs1, last_tree_shape.
  assert (length (data ld) = (N + pad) * (B * D)) as Hlen_ld.
  { rewrite Hd1, padded_data_length by (done || lia). lia. }
  rewrite Hlen_ld, Nat.div_mul by lia.
  assert (to_t3 B (N + pad) D (data ld) = keys) as ->.
  { unfold to_t3, keys. rewrite Hd1.
    rewrite <- (length_chunks (N * D) B (data t)) at 1.
    rewrite <- (length_fmap (padded_row pad D)).
    rewrite chunks_concat.
    - by rewrite <- list_fmap_compose.
    - apply Forall_fmap. eapply Forall_impl.
      + apply (chunks_Forall_length (N * D) B). lia.
      + intros row Hrow. cbn. apply length_padded_row; [done|lia]. }
  f_equal. rewrite Hd2.
  rewrite <- (length_replicate B (mask_row N pad)) at 1.
  rewrite chunks_concat by apply Forall_replicate_eq, length_mask_row.
  by rewrite fmap_replicate.
Qed.

Lemma tree_leaves_retrieval_after_setup_witness :
  ∃ self',
    setup_data zero_aggregator sample_floor_log (fresh_memory true) items5 = Ok self' ∧
    tree_leaves_retrieval sample_query_model self' [[[1%Q]]] = Ok [[[1%Q]]].
Proof.
  destruct (setup_data zero_aggregator sample_floor_log (fresh_memory true) items5)
    as [self'|e] eqn:Hrun; [|vm_compute in Hrun; discriminate].
  exists self'. split; [reflexivity|].
  rewrite (tree_leaves_retrieval_after_setup zero_aggregator sample_floor_log
             sample_query_model (fresh_memory true) self' items5 1 5 1 [[[1%Q]]]
             zero_aggregator_ok eq_refl eq_refl ltac:(lia) ltac:(cbn; lia) ltac:(lia)
             ltac:(lia) Hrun).
  reflexivity.
Defined.

Lemma foldl_zip_sum (l : list Q) (ls : list (list Q)) :
  Forall (fun v => length v = length l) ls →
  length (foldl (zip_with Qplus) l ls) = length l ∧
  ∀ b x0, l !! b = Some x0 →
    ∃ x, foldl (zip_with Qplus) l ls !! b = Some x ∧
         (x == x0 + Qsum ((fun v => default 0%Q (v !! b)) <$> ls))%Q.
Proof.
  revert l. induction ls as [|v ls IH]; intros l Hls.
  - cbn. split; [done|]. intros b x0 Hb. exists x0. split; [done|].
    symmetry. apply Qplus_0_r.
  - apply Forall_cons in Hls as [Hv Hls]. cbn [foldl].
    assert (length (zip_with Qplus l v) = length l) as Hz.
    { rewrite length_zip_with. lia. }
    destruct (IH (zip_with Qplus l v)) as [Hlen Hsum].
    { eapply Forall_impl; [exact Hls|]. intros w Hw. cbn in *. lia. }
    split; [lia|]. intros b x0 Hb.
    assert (b < length v) as Hbv.
    { rewrite Hv. by eapply lookup_lt_Some. }
    apply lookup_lt_is_Some in Hbv as [y Hy].
    destruct (Hsum b (x0 + y)%Q) as (x & Hx & Hxe).
    { rewrite lookup_zip_with, Hb. cbn. by rewrite Hy. }
    exists x. split; [exact Hx|].
    rewrite Hxe. cbn [fmap list_fmap]. unfold Qsum. cbn [foldr].
    rewrite Hy. cbn [default from_option id]. symmetry. apply Qplus_assoc.
Qed.

(** X16.  [process_rl_terms] answers the scalars 0 and 0 for empty lists.
    For the log-probabilities of one or more levels, one vector of
    [B] entries per level, it answers one value per batch element, the sum
    over the levels, not one scalar. *)
Theorem process_rl_terms_sums (entropies : list (list (list Q)))
    (l : list Q) (ls : list (list Q)) :
  process_rl_terms [] [] = (0%Q, Scalar 0%Q) ∧
  (Forall (fun v => length v = length l) ls →
   ∃ xs,
     (process_rl_terms entropies (l :: ls)).2 = PerBatch xs ∧
     length xs = length l ∧
     ∀ b, b < length l →
       ∃ x, xs !! b = Some x ∧
            (x == Qsum ((fun v => default 0%Q (v !! b)) <$> (l :: ls)))%Q).
Proof.
  split; [done|]. intros Hls.
  destruct (foldl_zip_sum l ls Hls) as [Hlen Hsum].
  exists (foldl (zip_with Qplus) l ls). split; [done|]. split; [exact Hlen|].
  intros b Hb. apply lookup_lt_is_Some in Hb as [x0 Hx0].
  destruct (Hsum b x0 Hx0) as (x & Hx & Hxe).
  exists x. split; [exact Hx|]. rewrite Hxe. cbn [fmap list_fmap]. unfold Qsum.
  cbn [foldr]. rewrite Hx0. reflexivity.
Qed.

Lemma process_rl_terms_sums_witness :
  ∃ xs,
    (process_rl_terms [] ([1; 2]%Q :: [[3; 4]%Q])).2 = PerBatch xs ∧ length xs = 2.
Proof.
  destruct (process_rl_terms_sums [] [1; 2]%Q [[3; 4]%Q]) as [_ H].
  destruct H as (xs & Hxs & Hlen & _); [by repeat constructor|].
  exists xs. split; [exact Hxs|exact Hlen].
Defined.
